(** * American penalty pricer: a shallow embedding of [American penalty.cpp]

    The C++ program prices an American-style contract with a penalty
    Crank-Nicolson scheme.  It is made of [main] and of four functions:
    [theta], [thomas_solve], [lagrange_interpolation] and
    [crank_nicolson].

    Conventions of the embedding.
    - A [double] is an exact rational ([Q]): rounding, overflow, infinities
      and NaN are outside the model.  [Qdiv] is total ([x / 0] is [0]), so
      every statement that depends on a quotient carries the hypothesis that
      the divisor is not zero.
    - An [int] is a [Z]; an [unsigned int] or a [size_t] is a [nat].
    - A [std::vector<double>] is a [list Q].  [operator[]] outside the
      bounds is undefined behaviour in C++; here it is the fault
      [OutOfBounds], so that a run without fault never left the bounds.
    - A bare [throw;] ends the program ([std::terminate]); the two places
      where the source does it are the faults [ZeroOrder] and
      [NoConvergence].
    - A function that writes through a non-const reference returns the final
      content of that argument next to its result.
    - [exp] and [pow] come from the C library; they are parameters. *)

From Stdlib Require Import ZArith QArith Qabs Qround List Lia Lqa Bool Recdef.
From Stdlib Require Import Morphisms Setoid.
Import ListNotations.

Open Scope Z_scope.

(** ** Faults and the result monad *)

Inductive fault : Type :=
| OutOfBounds      (* operator[] outside [0, size) *)
| BadLength        (* std::vector constructed with a negative size *)
| ZeroOrder        (* throw; in lagrange_interpolation *)
| NoConvergence.   (* throw; after the penalty iteration *)

Inductive res (A : Type) : Type :=
| Ok (a : A)
| Err (e : fault).

Arguments Ok {A} a.
Arguments Err {A} e.

Definition bind {A B : Type} (m : res A) (k : A -> res B) : res B :=
  match m with
  | Ok a => k a
  | Err e => Err e
  end.

Declare Scope res_scope.
Delimit Scope res_scope with res.
Notation "x <- m ;; k" := (bind m (fun x => k))
  (at level 61, m at next level, right associativity) : res_scope.
Notation "' pat <- m ;; k" := (bind m (fun x => match x with pat => k end))
  (at level 61, pat pattern, m at next level, right associativity) : res_scope.
Open Scope res_scope.

(** ** Vectors *)

Definition vec : Type := list Q.

Definition size (v : vec) : Z := Z.of_nat (length v).

(** [std::vector<double> v(n)]: [n] zeros. *)
Definition vector (n : Z) : res vec :=
  if n <? 0 then Err BadLength else Ok (repeat 0%Q (Z.to_nat n)).

Fixpoint upd (k : nat) (q : Q) (v : vec) : vec :=
  match v, k with
  | [], _ => []
  | _ :: t, O => q :: t
  | h :: t, S k' => h :: upd k' q t
  end.

(** [v[j]] read. *)
Definition get (v : vec) (j : Z) : res Q :=
  if (0 <=? j) && (j <? size v) then Ok (nth (Z.to_nat j) v 0%Q)
  else Err OutOfBounds.

(** [v[j] = q]. *)
Definition set (v : vec) (j : Z) (q : Q) : res vec :=
  if (0 <=? j) && (j <? size v) then Ok (upd (Z.to_nat j) q v)
  else Err OutOfBounds.

(** The content of cell [j], for statements. *)
Definition elt (v : vec) (j : Z) : Q := nth (Z.to_nat j) v 0%Q.

Notation "v .[ j ]" := (elt v j) (at level 1, left associativity, format "v .[ j ]").

(** ** Counted loops *)

Section Loops.
Context {St : Type}.
Variable body : Z -> St -> res St.

Fixpoint iterate_up (count : nat) (j : Z) (s : St) : res St :=
  match count with
  | O => Ok s
  | S count' => s' <- body j s ;; iterate_up count' (j + 1) s'
  end.

Fixpoint iterate_down (count : nat) (j : Z) (s : St) : res St :=
  match count with
  | O => Ok s
  | S count' => s' <- body j s ;; iterate_down count' (j - 1) s'
  end.

(** [for (int j = lo; j < hi; j++) body] *)
Definition for_up (lo hi : Z) (s : St) : res St :=
  iterate_up (Z.to_nat (hi - lo)) lo s.

(** [for (int j = hi; j >= lo; j--) body] *)
Definition for_down (hi lo : Z) (s : St) : res St :=
  iterate_down (Z.to_nat (hi - lo + 1)) hi s.
End Loops.

(** ** Comparisons and conversions *)

Definition Qltb (x y : Q) : bool := negb (Qle_bool y x).

(** [std::max(a, b)] is [(a < b) ? b : a]. *)
Definition std_max (a b : Q) : Q := if Qltb a b then b else a.

(** [int(x)]: truncation towards zero. *)
Definition to_int (x : Q) : Z := Z.quot (Qnum x) (Zpos (Qden x)).

(** ** thomas_solve *)

Open Scope Q_scope.

(** One step of the forward sweep, lines 99-100.  The state is the private
    vector [b] and the caller's [d]. *)
Definition sweep_step (a b_ c : vec) (j : Z) (s : vec * vec) : res (vec * vec) :=
  let '(b, d) := s in
  bj_ <- get b_ j ;;
  cj1 <- get c (j - 1) ;;
  aj <- get a j ;;
  bj1 <- get b (j - 1) ;;
  b <- set b j (bj_ - cj1 * aj / bj1) ;;
  dj <- get d j ;;
  dj1 <- get d (j - 1) ;;
  aj <- get a j ;;
  bj1 <- get b (j - 1) ;;
  d <- set d j (dj - dj1 * aj / bj1) ;;
  Ok (b, d).

(** Lines 88-101: the pivots [b] and the swept right-hand side. *)
Definition forward_sweep (a b_ c d : vec) : res (vec * vec) :=
  let n := size a in
  b <- vector n ;;
  b0 <- get b_ 0 ;;
  b <- set b 0 b0 ;;
  for_up (sweep_step a b_ c) 1 n (b, d).

(** One step of the back substitution, line 105. *)
Definition back_step (b c d : vec) (j : Z) (temp : vec) : res vec :=
  dj <- get d j ;;
  cj <- get c j ;;
  tj1 <- get temp (j + 1) ;;
  bj <- get b j ;;
  set temp j ((dj - cj * tj1) / bj).

(** Lines 91 ([temp]) and 104-105; [n] is [a.size()]. *)
Definition back_substitute (n : Z) (b c d : vec) : res vec :=
  temp <- vector n ;;
  dn <- get d (n - 1) ;;
  bn <- get b (n - 1) ;;
  temp <- set temp (n - 1) (dn / bn) ;;
  for_down (back_step b c d) (n - 2) 0 temp.

(** [thomas_solve(a, b_, c, d)]: the solution, and the final content of the
    caller's [d], which the definition takes by non-const reference. *)
Definition thomas_solve (a b_ c d : vec) : res (vec * vec) :=
  let n := size a in
  '(b, d) <- forward_sweep a b_ c d ;;
  temp <- back_substitute n b c d ;;
  Ok (temp, d).

(** ** lagrange_interpolation *)

(** Lines 117 and 121-126: the first index of the stencil, from the offset
    [x0 - x[0]], the spacing [dx], the order [n] and the number of
    samples. *)
Definition window_start (x0 xfirst dx : Q) (n len : nat) : Z :=
  let nHalf := Z.of_nat (n / 2) in
  let jStar :=
    if Nat.even n then (to_int ((x0 - xfirst) / dx) - (nHalf - 1))%Z
    else (to_int ((x0 - xfirst) / dx + 0.5) - nHalf)%Z in
  let jStar := Z.max 0 jStar in
  Z.min (Z.of_nat len - Z.of_nat n) jStar.

(** Lines 136-140: the factors of the term of [i]. *)
Definition lagrange_factor (x : vec) (x0 : Q) (i j : Z) (int_temp : Q) : res Q :=
  if (j =? i)%Z then Ok int_temp
  else
    xj <- get x j ;;
    xi <- get x i ;;
    xj' <- get x j ;;
    Ok (int_temp * ((x0 - xj) / (xi - xj'))).

(** Lines 133-141: the term of [i], added to [temp]. *)
Definition lagrange_term (y x : vec) (x0 : Q) (jStar : Z) (n : nat)
    (i : Z) (temp : Q) : res Q :=
  yi <- get y i ;;
  int_temp <- for_up (lagrange_factor x x0 i) jStar (jStar + Z.of_nat n) yi ;;
  Ok (temp + int_temp).

(** Lines 128-144: the value over the stencil that starts at [jStar]. *)
Definition lagrange_eval (y x : vec) (x0 : Q) (jStar : Z) (n : nat) : res Q :=
  if (n =? 1)%nat then get y jStar
  else for_up (lagrange_term y x x0 jStar n) jStar (jStar + Z.of_nat n) 0.

(** Lines 114-144: the function once the order is at most the number of
    samples. *)
Definition lagrange_body (y x : vec) (x0 : Q) (n : nat) : res Q :=
  if (n =? 0)%nat then Err ZeroOrder
  else
    x1 <- get x 1 ;;
    xfirst <- get x 0 ;;
    let dx := x1 - xfirst in
    xfirst' <- get x 0 ;;
    let jStar := window_start x0 xfirst' dx n (length x) in
    lagrange_eval y x x0 jStar n.

(** Line 113: a call with an order above the number of samples calls the
    function again with the number of samples. *)
Function lagrange_interpolation (y x : vec) (x0 : Q) (n : nat)
    {measure (fun n => if (length x <? n)%nat then 1%nat else 0%nat) n} : res Q :=
  if (length x <? n)%nat then lagrange_interpolation y x x0 (length x)
  else lagrange_body y x x0 n.
Proof.
  intros _ x _ n H. rewrite H, Nat.ltb_irrefl. apply Nat.lt_0_1.
Defined.

(** ** crank_nicolson *)

Section Pricer.
(** [exp] and [pow] of <cmath>. *)
Variable exp : Q -> Q.
Variable pow : Q -> Q -> Q.

(** Lines 79-82. *)
Definition theta (mu X dt : Q) (i : Z) : Q :=
  (1 + mu) * X * exp (mu * inject_Z i * dt).

Variables T F R r kappa mu S0 X C alpha beta sigma : Q.
Variables i_max j_max : Z.
Variables S_max rho tol : Q.
Variable iter_max : Z.

Definition dS : Q := S_max / inject_Z j_max.
Definition dt : Q := T / inject_Z i_max.

(** Lines 157 and 162. *)
Definition init_grid : res vec :=
  S <- vector (j_max + 1) ;;
  for_up (fun j S => set S j (inject_Z j * dS)) 0 (j_max + 1) S.

(** Lines 158-159 and 165-168. *)
Definition init_values (S : vec) : res (vec * vec) :=
  v_old <- vector (j_max + 1) ;;
  v_new <- vector (j_max + 1) ;;
  for_up (fun j '(v_old, v_new) =>
            Sj <- get S j ;;
            v_old <- set v_old j (std_max F (R * Sj)) ;;
            Sj <- get S j ;;
            v_new <- set v_new j (std_max F (R * Sj)) ;;
            Ok (v_old, v_new))
         0 (j_max + 1) (v_old, v_new).

(** The four vectors [a], [b], [c], [d] of one linear system. *)
Definition system : Type := vec * vec * vec * vec.

(** Lines 188-194: the row of an interior node. *)
Definition interior_row (i : Z) (v_old : vec) (j : Z) (s : system) : res system :=
  let '(a, b, c, d) := s in
  a <- set a j (-0.25 * pow sigma 2 * pow (inject_Z j) (2 * beta) * pow dS (2 * (beta - 1))
                + (kappa / (4 * dS)) * (theta mu X dt i - inject_Z j * dS)) ;;
  b <- set b j ((1 / dt) + 0.5 * pow sigma 2 * pow (inject_Z j) (2 * beta) * pow dS (2 * (beta - 1))
                + (r / 2)) ;;
  c <- set c j (-0.25 * pow sigma 2 * pow (inject_Z j) (2 * beta) * pow dS (2 * (beta - 1))
                - (kappa / (4 * dS)) * (theta mu X dt i - inject_Z j * dS)) ;;
  vm <- get v_old (j - 1) ;;
  vj <- get v_old j ;;
  vp <- get v_old (j + 1) ;;
  d <- set d j ((0.25 * pow sigma 2 * pow (inject_Z j) (2 * beta) * pow dS (2 * (beta - 1))
                 - (kappa / (4 * dS)) * (theta mu X dt i - inject_Z j * dS)) * vm
                + ((1 / dt) - 0.5 * pow sigma 2 * pow (inject_Z j) (2 * beta) * pow dS (2 * (beta - 1))
                   - (r / 2)) * vj
                + (0.25 * pow sigma 2 * pow (inject_Z j) (2 * beta) * pow dS (2 * (beta - 1))
                   + (kappa / (4 * dS)) * (theta mu X dt i - inject_Z j * dS)) * vp
                + C * exp (- alpha * inject_Z i * dt)) ;;
  Ok (a, b, c, d).

(** The coefficients of an interior row as the specification gives them
    (section 4.3), with [theta(i) = (1+mu) * X * exp(mu * i * dt)]. *)
Definition spec_theta (i : Z) : Q := (1 + mu) * X * exp (mu * inject_Z i * dt).

Definition spec_sub_diagonal (i j : Z) : Q :=
  -0.25 * pow sigma 2 * pow (inject_Z j) (2 * beta) * pow dS (2 * (beta - 1))
  + (kappa / (4 * dS)) * (spec_theta i - inject_Z j * dS).

Definition spec_diagonal (j : Z) : Q :=
  (1 / dt) + 0.5 * pow sigma 2 * pow (inject_Z j) (2 * beta) * pow dS (2 * (beta - 1))
  + r / 2.

Definition spec_super_diagonal (i j : Z) : Q :=
  -0.25 * pow sigma 2 * pow (inject_Z j) (2 * beta) * pow dS (2 * (beta - 1))
  - (kappa / (4 * dS)) * (spec_theta i - inject_Z j * dS).

(** The right-hand side without its coupon term: the three neighbours of
    the later layer under the mirrored coefficients. *)
Definition spec_rhs_neighbours (i j : Z) (v_old : vec) : Q :=
  (0.25 * pow sigma 2 * pow (inject_Z j) (2 * beta) * pow dS (2 * (beta - 1))
   - (kappa / (4 * dS)) * (spec_theta i - inject_Z j * dS)) * v_old.[j - 1]
  + ((1 / dt) - 0.5 * pow sigma 2 * pow (inject_Z j) (2 * beta) * pow dS (2 * (beta - 1))
     - (r / 2)) * v_old.[j]
  + (0.25 * pow sigma 2 * pow (inject_Z j) (2 * beta) * pow dS (2 * (beta - 1))
     + (kappa / (4 * dS)) * (spec_theta i - inject_Z j * dS)) * v_old.[j + 1].

(** Lines 174-201: the system of time layer [i]. *)
Definition assemble (S : vec) (i : Z) (v_old : vec) : res system :=
  a <- vector (j_max + 1) ;;
  b <- vector (j_max + 1) ;;
  c <- vector (j_max + 1) ;;
  d <- vector (j_max + 1) ;;
  a <- set a 0 0 ;;
  b <- set b 0 (- (1 / dt) - (kappa * theta mu X dt i / dS) - (r / 2)) ;;
  c <- set c 0 (kappa * theta mu X dt i / dS) ;;
  v0 <- get v_old 0 ;;
  d <- set d 0 ((- (1 / dt) + (r / 2)) * v0 - C * exp (inject_Z (- i) * dt)) ;;
  '(a, b, c, d) <- for_up (interior_row i v_old) 1 (j_max - 1 + 1) (a, b, c, d) ;;
  a <- set a j_max 0 ;;
  b <- set b j_max 1 ;;
  c <- set c j_max 0 ;;
  Sj <- get S j_max ;;
  d <- set d j_max (R * Sj) ;;
  Ok (a, b, c, d).

(** Lines 215-218: the penalty at node [j]. *)
Definition penalty_step (S v_new b d : vec) (j : Z) (s : vec * vec) : res (vec * vec) :=
  let '(b_hat, d_hat) := s in
  vj <- get v_new j ;;
  Sj <- get S j ;;
  if Qltb vj (R * Sj) then
    bj <- get b j ;;
    b_hat <- set b_hat j (bj + rho) ;;
    dj <- get d j ;;
    Sj <- get S j ;;
    d_hat <- set d_hat j (dj + rho * (R * Sj)) ;;
    Ok (b_hat, d_hat)
  else Ok (b_hat, d_hat).

(** Lines 209-219: the copy of the system and its penalty. *)
Definition apply_penalty (S v_new : vec) (s : system) : res system :=
  let '(a, b, c, d) := s in
  let '(a_hat, b_hat, c_hat, d_hat) := (a, b, c, d) in
  '(b_hat, d_hat) <- for_up (penalty_step S v_new b d) 1 j_max (b_hat, d_hat) ;;
  Ok (a_hat, b_hat, c_hat, d_hat).

(** Lines 225-228. *)
Definition squared_error (v_new y : vec) : res Q :=
  for_up (fun j error =>
            vj <- get v_new j ;;
            yj <- get y j ;;
            Ok (error + pow (vj - yj) 2))
         0 j_max 0.

(** Lines 209-231: one pass of the penalty iteration; the new [v_new] and
    the error. *)
Definition penalty_pass (S : vec) (s : system) (v_new : vec) : res (vec * Q) :=
  '(a_hat, b_hat, c_hat, d_hat) <- apply_penalty S v_new s ;;
  '(y, _) <- thomas_solve a_hat b_hat c_hat d_hat ;;
  error <- squared_error v_new y ;;
  Ok (y, error).

(** Lines 206-238: [count] is the number of passes that [penalty_itr <
    iter_max] still allows; the loop ends by [break] or when that number
    is used up.  The result is the final [penalty_itr] and [v_new]. *)
Fixpoint penalty_loop (S : vec) (s : system) (count : nat) (penalty_itr : Z)
    (v_new : vec) : res (Z * vec) :=
  match count with
  | O => Ok (penalty_itr, v_new)
  | Datatypes.S count' =>
      '(y, error) <- penalty_pass S s v_new ;;
      if Qltb error (pow tol 2) then Ok (penalty_itr, y)
      else penalty_loop S s count' (penalty_itr + 1)%Z y
  end.

(** The convergence measure as the specification words it: the squared
    differences of every node from [0] to [j_max]. *)
Definition spec_squared_error (v_new y : vec) : res Q :=
  for_up (fun j error =>
            vj <- get v_new j ;;
            yj <- get y j ;;
            Ok (error + pow (vj - yj) 2))
         0 (j_max + 1) 0.

(** [count] passes in a row, from the candidate [v_new], each end with an
    error that is not below [tol^2]. *)
Fixpoint stalls (S : vec) (s : system) (count : nat) (v_new : vec) : Prop :=
  match count with
  | O => True
  | Datatypes.S count' =>
      exists y error,
        penalty_pass S s v_new = Ok (y, error) /\
        ~ error < pow tol 2 /\
        stalls S s count' y
  end.

(** Lines 173-247: one time layer; the state is [(v_old, v_new)]. *)
Definition time_layer (S : vec) (i : Z) (v : vec * vec) : res (vec * vec) :=
  let '(v_old, v_new) := v in
  s <- assemble S i v_old ;;
  '(penalty_itr, v_new) <- penalty_loop S s (Z.to_nat iter_max) 0 v_new ;;
  if (iter_max <=? penalty_itr)%Z then Err NoConvergence
  else Ok (v_new, v_new).

(** Lines 171-248. *)
Definition time_march (S : vec) (v : vec * vec) : res (vec * vec) :=
  for_down (time_layer S) (i_max - 1) 0 v.

(** Lines 148-254. *)
Definition crank_nicolson : res Q :=
  S <- init_grid ;;
  v <- init_values S ;;
  '(_, v_new) <- time_march S v ;;
  lagrange_interpolation v_new S S0 8.
End Pricer.

(** ** main

    Lines 29-73: the parameters of the program and its one call of
    [crank_nicolson]; the timing and the output are left out. *)
Definition main_option_value (exp : Q -> Q) (pow : Q -> Q -> Q) : res Q :=
  let T := 2 in
  let F := 50 in
  let R := 1 in
  let r := 0.0114 in
  let kappa := 0.125 in
  let mu := 0.0174 in
  let S0 := 50.5 in
  let X := 50.5 in
  let C := 0.285 in
  let alpha := 0.01 in
  let beta := 0.869 in
  let sigma := 0.668 in
  let rho := 1e8 in
  let tol := 1e-4 in
  let iter_max := 10000%Z in
  let i_max := 100%Z in
  let j_max := 100%Z in
  let S_max := 5 * F in
  crank_nicolson exp pow T F R r kappa mu S0 X C alpha beta sigma i_max j_max S_max
                 rho tol iter_max.

(** ** Running the model

    Rational stand-ins for [exp] and [pow], to evaluate the model: a Taylor
    polynomial, which is [1] at [0], and the power of the integral part of
    the exponent, which is the power itself at an integral exponent. *)

Fixpoint exp_series (k : nat) (x term acc : Q) (m : Z) : Q :=
  match k with
  | O => acc
  | S k' => exp_series k' x (term * x / inject_Z m) (acc + term) (m + 1)%Z
  end.

Definition exp_q (x : Q) : Q := Qred (exp_series 12 x 1 0 1).

Definition pow_q (x y : Q) : Q := Qred (Qpower x (to_int y)).

Definition Qred_res (m : res (vec * vec)) : res (vec * vec) :=
  match m with
  | Ok (x, d) => Ok (map Qred x, map Qred d)
  | Err e => Err e
  end.

(** ** Predicates of the statements *)

(** The pivots of the forward sweep are all different from zero. *)
Definition pivots_nonzero (a b_ c d : vec) : bool :=
  match forward_sweep a b_ c d with
  | Ok (b, _) => forallb (fun p => negb (Qeq_bool p 0)) b
  | Err _ => false
  end.

(** The left-hand side of row [j] of the tridiagonal system at [x]; the
    first row has no left neighbour and the last one no right neighbour. *)
Definition row_lhs (a b_ c x : vec) (j : Z) : Q :=
  (if (j =? 0)%Z then 0 else a.[j] * x.[j - 1])
  + b_.[j] * x.[j]
  + (if (j =? size a - 1)%Z then 0 else c.[j] * x.[j + 1]).

(** Every row is strictly dominated by its diagonal entry; the first row
    has no sub-diagonal entry and the last one no super-diagonal entry. *)
Definition strictly_dominant (a b_ c : vec) : Prop :=
  forall j, (0 <= j < size a)%Z ->
    (if (j =? 0)%Z then 0 else Qabs a.[j])
    + (if (j =? size a - 1)%Z then 0 else Qabs c.[j]) < Qabs b_.[j].

(** What the forward sweep has established when it reaches row [j]: the
    pivots [B] and the swept right-hand side [D] follow the recurrences of
    lines 99-100 below [j], and [D] is still the caller's [d] from [j] on. *)
Definition swept (a b_ c d : vec) (j : Z) (s : vec * vec) : Prop :=
  let '(B, D) := s in
  size B = size a /\ size D = size d /\
  B.[0] = b_.[0] /\ D.[0] = d.[0] /\
  (forall k, (1 <= k < j)%Z ->
     B.[k] = b_.[k] - c.[k - 1] * a.[k] / B.[k - 1] /\
     D.[k] = d.[k] - D.[k - 1] * a.[k] / B.[k - 1]) /\
  (forall k, (j <= k < size a)%Z -> D.[k] = d.[k]).

(** What the back substitution has established when it has filled the rows
    above [j]. *)
Definition substituted (B c D : vec) (j : Z) (x : vec) : Prop :=
  size x = size B /\
  x.[size B - 1] = D.[size B - 1] / B.[size B - 1] /\
  (forall k, (j < k <= size B - 2)%Z ->
     x.[k] = (D.[k] - c.[k] * x.[k + 1]) / B.[k]).

(** * Properties *)

Example thomas_small :
  Qred_res (thomas_solve [0; 1; 1] [2; 3; 2] [1; 1; 0] [3; 5; 3])
  = Ok ([1; 1; 1], [3; 7 # 2; 8 # 5]).
Proof. vm_compute. reflexivity. Qed.

Example exp_q_0 : exp_q 0 = 1 /\ pow_q (3 # 2) 2 = 9 # 4.
Proof. vm_compute. split; reflexivity. Qed.

(** ** Vectors *)

Lemma upd_length (k : nat) (q : Q) (v : vec) : length (upd k q v) = length v.
Proof.
  revert k; induction v as [|h t IH]; intros [|k]; simpl; auto.
Qed.

Lemma nth_upd_same (k : nat) (q : Q) (v : vec) :
  (k < length v)%nat -> nth k (upd k q v) 0 = q.
Proof.
  revert k; induction v as [|h t IH]; intros [|k] H; simpl in *; try lia; auto.
  apply IH; lia.
Qed.

Lemma nth_upd_other (k k' : nat) (q : Q) (v : vec) :
  k <> k' -> nth k' (upd k q v) 0 = nth k' v 0.
Proof.
  revert k k'; induction v as [|h t IH]; intros [|k] [|k'] H; simpl; auto; try lia.
Qed.

Lemma size_upd (k : nat) (q : Q) (v : vec) : size (upd k q v) = size v.
Proof. unfold size; now rewrite upd_length. Qed.

Lemma size_nonneg (v : vec) : (0 <= size v)%Z.
Proof. unfold size; lia. Qed.

Lemma elt_upd_same (j : Z) (q : Q) (v : vec) :
  (0 <= j < size v)%Z -> (upd (Z.to_nat j) q v).[j] = q.
Proof. unfold elt, size; intros H; apply nth_upd_same; lia. Qed.

Lemma elt_upd_other (j k : Z) (q : Q) (v : vec) :
  (0 <= j)%Z -> (0 <= k)%Z -> j <> k -> (upd (Z.to_nat j) q v).[k] = v.[k].
Proof. unfold elt; intros Hj Hk H; apply nth_upd_other; lia. Qed.

Lemma get_ok (v : vec) (j : Z) : (0 <= j < size v)%Z -> get v j = Ok v.[j].
Proof.
  intros [H1 H2]; unfold get.
  apply Z.leb_le in H1; apply Z.ltb_lt in H2; now rewrite H1, H2.
Qed.

Lemma get_out (v : vec) (j : Z) :
  (j < 0 \/ size v <= j)%Z -> get v j = Err OutOfBounds.
Proof.
  intros H; unfold get.
  destruct (0 <=? j)%Z eqn:E1; destruct (j <? size v)%Z eqn:E2; simpl; auto.
  apply Z.leb_le in E1; apply Z.ltb_lt in E2; lia.
Qed.

Lemma set_ok (v : vec) (j : Z) (q : Q) :
  (0 <= j < size v)%Z -> set v j q = Ok (upd (Z.to_nat j) q v).
Proof.
  intros [H1 H2]; unfold set.
  apply Z.leb_le in H1; apply Z.ltb_lt in H2; now rewrite H1, H2.
Qed.

Lemma set_out (v : vec) (j : Z) (q : Q) :
  (j < 0 \/ size v <= j)%Z -> set v j q = Err OutOfBounds.
Proof.
  intros H; unfold set.
  destruct (0 <=? j)%Z eqn:E1; destruct (j <? size v)%Z eqn:E2; simpl; auto.
  apply Z.leb_le in E1; apply Z.ltb_lt in E2; lia.
Qed.

Lemma vector_ok (n : Z) : (0 <= n)%Z -> vector n = Ok (repeat 0 (Z.to_nat n)).
Proof.
  intros H; unfold vector. destruct (n <? 0)%Z eqn:E; auto.
  apply Z.ltb_lt in E; lia.
Qed.

Lemma size_repeat (n : Z) : (0 <= n)%Z -> size (repeat 0 (Z.to_nat n)) = n.
Proof. intros H; unfold size; rewrite repeat_length; lia. Qed.

Lemma elt_repeat (n j : Z) : (repeat 0 (Z.to_nat n)).[j] = 0.
Proof.
  unfold elt. generalize (Z.to_nat j) as k. generalize (Z.to_nat n) as m.
  induction m as [|m IH]; intros [|k]; simpl; auto.
Qed.

(** Two vectors of one size with the same cells are equal. *)
Lemma vec_ext (u v : vec) :
  size u = size v -> (forall j, (0 <= j < size u)%Z -> u.[j] = v.[j]) -> u = v.
Proof.
  unfold size, elt. revert v; induction u as [|h t IH]; intros [|h' t'] Hs H;
    simpl in *; try lia; auto.
  f_equal.
  - apply (H 0%Z); lia.
  - apply IH; [lia|]. intros j Hj.
    specialize (H (j + 1)%Z).
    replace (Z.to_nat (j + 1)) with (S (Z.to_nat j)) in H by lia.
    apply H; lia.
Qed.

(** ** Loops: the invariant rules *)

Section LoopRules.
Context {St : Type}.
Variable body : Z -> St -> res St.

Lemma iterate_up_inv (P : Z -> St -> Prop) (count : nat) (j : Z) (s : St) :
  P j s ->
  (forall k t, (j <= k < j + Z.of_nat count)%Z -> P k t ->
               exists t', body k t = Ok t' /\ P (k + 1)%Z t') ->
  exists s', iterate_up body count j s = Ok s' /\ P (j + Z.of_nat count)%Z s'.
Proof.
  revert j s; induction count as [|count IH]; intros j s H0 Hstep.
  - exists s; split; [reflexivity|]. now replace (j + Z.of_nat 0)%Z with j by lia.
  - destruct (Hstep j s) as [t' [E Ht']]; [lia|assumption|].
    destruct (IH (j + 1)%Z t' Ht') as [s' [E' Hs']].
    + intros k t Hk; apply Hstep; lia.
    + exists s'; split.
      * simpl; rewrite E; exact E'.
      * now replace (j + Z.of_nat (S count))%Z with (j + 1 + Z.of_nat count)%Z by lia.
Qed.

Lemma for_up_inv (P : Z -> St -> Prop) (lo hi : Z) (s : St) :
  (lo <= hi)%Z ->
  P lo s ->
  (forall k t, (lo <= k < hi)%Z -> P k t ->
               exists t', body k t = Ok t' /\ P (k + 1)%Z t') ->
  exists s', for_up body lo hi s = Ok s' /\ P hi s'.
Proof.
  intros Hle H0 Hstep. unfold for_up.
  destruct (iterate_up_inv P (Z.to_nat (hi - lo)) lo s H0) as [s' [E Hs']].
  - intros k t Hk; apply Hstep; lia.
  - exists s'; split; [exact E|].
    now replace hi with (lo + Z.of_nat (Z.to_nat (hi - lo)))%Z at 1 by lia.
Qed.

Lemma for_up_skip (lo hi : Z) (s : St) : (hi <= lo)%Z -> for_up body lo hi s = Ok s.
Proof.
  intros H; unfold for_up. now replace (Z.to_nat (hi - lo)) with O by lia.
Qed.

Lemma iterate_down_inv (P : Z -> St -> Prop) (count : nat) (j : Z) (s : St) :
  P j s ->
  (forall k t, (j - Z.of_nat count < k <= j)%Z -> P k t ->
               exists t', body k t = Ok t' /\ P (k - 1)%Z t') ->
  exists s', iterate_down body count j s = Ok s' /\ P (j - Z.of_nat count)%Z s'.
Proof.
  revert j s; induction count as [|count IH]; intros j s H0 Hstep.
  - exists s; split; [reflexivity|]. now replace (j - Z.of_nat 0)%Z with j by lia.
  - destruct (Hstep j s) as [t' [E Ht']]; [lia|assumption|].
    destruct (IH (j - 1)%Z t' Ht') as [s' [E' Hs']].
    + intros k t Hk; apply Hstep; lia.
    + exists s'; split.
      * simpl; rewrite E; exact E'.
      * now replace (j - Z.of_nat (S count))%Z with (j - 1 - Z.of_nat count)%Z by lia.
Qed.

Lemma for_down_inv (P : Z -> St -> Prop) (hi lo : Z) (s : St) :
  (lo - 1 <= hi)%Z ->
  P hi s ->
  (forall k t, (lo <= k <= hi)%Z -> P k t ->
               exists t', body k t = Ok t' /\ P (k - 1)%Z t') ->
  exists s', for_down body hi lo s = Ok s' /\ P (lo - 1)%Z s'.
Proof.
  intros Hle H0 Hstep. unfold for_down.
  destruct (iterate_down_inv P (Z.to_nat (hi - lo + 1)) hi s H0) as [s' [E Hs']].
  - intros k t Hk; apply Hstep; lia.
  - exists s'; split; [exact E|].
    now replace (lo - 1)%Z with (hi - Z.of_nat (Z.to_nat (hi - lo + 1)))%Z by lia.
Qed.

Lemma for_down_skip (hi lo : Z) (s : St) : (hi < lo)%Z -> for_down body hi lo s = Ok s.
Proof.
  intros H; unfold for_down. now replace (Z.to_nat (hi - lo + 1)) with O by lia.
Qed.

(** A fault in an iteration is the fault of the loop. *)
Lemma iterate_down_fault (m rest : nat) (j : Z) (s t : St) (e : fault) :
  iterate_down body m j s = Ok t ->
  body (j - Z.of_nat m)%Z t = Err e ->
  iterate_down body (m + S rest) j s = Err e.
Proof.
  revert j s; induction m as [|m IH]; intros j s H1 H2.
  - simpl in *. injection H1 as ->. replace (j - 0)%Z with j in H2 by lia.
    now rewrite H2.
  - simpl in *. destruct (body j s) as [s1|e1]; simpl in *; [|discriminate].
    apply IH; auto. now replace (j - 1 - Z.of_nat m)%Z with (j - Z.pos (Pos.of_succ_nat m))%Z by lia.
Qed.
End LoopRules.

(** ** thomas_solve *)

Ltac step_get := rewrite get_ok by lia; cbn [bind].
Ltac step_set := rewrite set_ok by lia; cbn [bind].
Ltac steps := repeat first [step_get | step_set].

Section Thomas.
Variables a b_ c d : vec.
(** [b_] and [d] are read up to the index [n - 1], [c] up to [n - 2]. *)
Hypothesis Hb : (size a <= size b_)%Z.
Hypothesis Hc : (size a - 1 <= size c)%Z.
Hypothesis Hd : (size a <= size d)%Z.
Hypothesis Hn : (1 <= size a)%Z.

Lemma sweep_step_swept (j : Z) (s : vec * vec) :
  (1 <= j < size a)%Z -> swept a b_ c d j s ->
  exists s', sweep_step a b_ c j s = Ok s' /\ swept a b_ c d (j + 1) s'.
Proof.
  intros Hj. destruct s as [B D]. intros (HB & HD & B0 & D0 & Hlow & Hup).
  unfold sweep_step. steps.
  rewrite (get_ok (upd _ _ B)) by (rewrite size_upd; lia); cbn [bind].
  step_set.
  eexists; split; [reflexivity|].
  assert (E1 : (upd (Z.to_nat j) (b_.[j] - c.[j - 1] * a.[j] / B.[j - 1]) B).[j - 1]
               = B.[j - 1]) by (apply elt_upd_other; lia).
  rewrite E1.
  repeat split.
  - now rewrite size_upd.
  - now rewrite size_upd.
  - rewrite elt_upd_other by lia; auto.
  - rewrite elt_upd_other by lia; auto.
  - destruct (Z.eq_dec k j) as [->|Hk].
    + rewrite elt_upd_same by lia. now rewrite E1.
    + rewrite !elt_upd_other by lia. apply Hlow; lia.
  - destruct (Z.eq_dec k j) as [->|Hk].
    + rewrite elt_upd_same by lia. rewrite !elt_upd_other by lia.
      rewrite (Hup j) by lia. reflexivity.
    + rewrite !elt_upd_other by lia. apply Hlow; lia.
  - intros k Hk. rewrite elt_upd_other by lia. apply Hup; lia.
Qed.

Lemma forward_sweep_swept :
  exists B D, forward_sweep a b_ c d = Ok (B, D) /\ swept a b_ c d (size a) (B, D).
Proof.
  unfold forward_sweep.
  rewrite vector_ok by lia; cbn [bind].
  step_get.
  rewrite set_ok by (rewrite size_repeat; lia); cbn [bind].
  destruct (for_up_inv (sweep_step a b_ c) (swept a b_ c d) 1 (size a)
              (upd (Z.to_nat 0) b_.[0] (repeat 0 (Z.to_nat (size a))), d))
    as [[B D] [E H]].
  - lia.
  - repeat split.
    + rewrite size_upd, size_repeat; lia.
    + rewrite elt_upd_same; auto. rewrite size_repeat; lia.
    + lia.
    + lia.
  - intros k t Hk; now apply sweep_step_swept.
  - exists B, D; auto.
Qed.

Lemma back_step_substituted (B D : vec) (j : Z) (x : vec) :
  size B = size a -> (size a <= size D)%Z ->
  (0 <= j <= size a - 2)%Z -> substituted B c D j x ->
  exists x', back_step B c D j x = Ok x' /\ substituted B c D (j - 1) x'.
Proof.
  intros HB HD Hj (Hx & Hlast & Hrec).
  unfold back_step. steps.
  eexists; split; [reflexivity|].
  repeat split.
  - now rewrite size_upd.
  - rewrite elt_upd_other by lia. exact Hlast.
  - intros k Hk. destruct (Z.eq_dec k j) as [->|Hkj].
    + rewrite elt_upd_same by lia. rewrite elt_upd_other by lia. reflexivity.
    + rewrite !elt_upd_other by lia. apply Hrec; lia.
Qed.

Lemma back_substitute_substituted (B D : vec) :
  size B = size a -> (size a <= size D)%Z ->
  exists x, back_substitute (size a) B c D = Ok x /\ substituted B c D (-1) x.
Proof.
  intros HB HD. unfold back_substitute. rewrite <- HB.
  rewrite vector_ok by lia; cbn [bind].
  steps.
  rewrite set_ok by (rewrite size_repeat; lia); cbn [bind].
  destruct (for_down_inv (back_step B c D) (substituted B c D) (size B - 2) 0
              (upd (Z.to_nat (size B - 1)) (D.[size B - 1] / B.[size B - 1])
                   (repeat 0 (Z.to_nat (size B))))) as [x [E H]].
  - lia.
  - repeat split.
    + rewrite size_upd, size_repeat; lia.
    + rewrite elt_upd_same; auto. rewrite size_repeat; lia.
    + lia.
  - intros k t Hk; apply back_step_substituted; auto; lia.
  - exists x; split; auto.
Qed.

(** With vectors that are long enough the solver runs to its end: no
    access leaves the bounds. *)
Lemma thomas_solve_runs_wide :
  exists B D x,
    forward_sweep a b_ c d = Ok (B, D) /\ swept a b_ c d (size a) (B, D) /\
    substituted B c D (-1) x /\ thomas_solve a b_ c d = Ok (x, D).
Proof.
  destruct forward_sweep_swept as (B & D & E & H).
  destruct (back_substitute_substituted B D) as (x & E' & H').
  { apply H. }
  { destruct H as (_ & HD & _). lia. }
  exists B, D, x. split; [exact E|]. split; [exact H|]. split; [exact H'|].
  unfold thomas_solve. cbv zeta. rewrite E; cbn [bind]. rewrite E'; reflexivity.
Qed.
End Thomas.

(** The same for four vectors of one size. *)
Lemma thomas_solve_runs (a b_ c d : vec) :
  size b_ = size a -> size c = size a -> size d = size a -> (1 <= size a)%Z ->
  exists B D x,
    forward_sweep a b_ c d = Ok (B, D) /\ swept a b_ c d (size a) (B, D) /\
    substituted B c D (-1) x /\ thomas_solve a b_ c d = Ok (x, D).
Proof. intros Hb Hc Hd Hn. apply thomas_solve_runs_wide; lia. Qed.

Lemma forallb_elt (f : Q -> bool) (v : vec) (k : Z) :
  forallb f v = true -> (0 <= k < size v)%Z -> f v.[k] = true.
Proof.
  intros H Hk. rewrite forallb_forall in H. apply H.
  unfold elt. apply nth_In. unfold size in Hk. lia.
Qed.

Lemma pivots_nonzero_elt (a b_ c d B D : vec) (k : Z) :
  pivots_nonzero a b_ c d = true -> forward_sweep a b_ c d = Ok (B, D) ->
  (0 <= k < size B)%Z -> ~ B.[k] == 0.
Proof.
  unfold pivots_nonzero. intros H E Hk. rewrite E in H.
  apply (forallb_elt _ _ k) in H; [|assumption].
  cbv beta in H.
  intros Hz. apply Qeq_bool_iff in Hz. rewrite Hz in H. discriminate.
Qed.

(** The algebra of one row: [Bm], [Bj] are the pivots of the rows [j - 1]
    and [j], [Dm], [Dj] the swept right-hand sides, [t] the term of the
    right neighbour. *)
Lemma row_algebra (aj bj dj cm xm xj t Bm Bj Dm Dj : Q) :
  ~ Bm == 0 -> ~ Bj == 0 ->
  Bj == bj - cm * aj / Bm ->
  Dj == dj - Dm * aj / Bm ->
  xm == (Dm - cm * xj) / Bm ->
  xj == (Dj - t) / Bj ->
  aj * xm + bj * xj + t == dj.
Proof.
  intros HBm HBj EB ED Exm Exj.
  assert (Eb : bj == Bj + cm * aj / Bm) by (rewrite EB; field; assumption).
  assert (Ed : dj == Dj + Dm * aj / Bm) by (rewrite ED; field; assumption).
  assert (Et : t == Dj - Bj * xj) by (rewrite Exj; field; assumption).
  rewrite Eb, Ed, Exm, Et. field. assumption.
Qed.

Lemma first_row_algebra (b0 d0 x0 t : Q) :
  ~ b0 == 0 -> x0 == (d0 - t) / b0 -> b0 * x0 + t == d0.
Proof. intros H E. rewrite E. field. assumption. Qed.

(** The rows of the system at the result of the back substitution over a
    swept system without zero pivot. *)
Lemma thomas_rows_of_sweep (a b_ c d B D x : vec) :
  (1 <= size a)%Z ->
  swept a b_ c d (size a) (B, D) -> substituted B c D (-1) x ->
  (forall k, (0 <= k < size a)%Z -> ~ B.[k] == 0) ->
  forall j, (0 <= j < size a)%Z -> row_lhs a b_ c x j == d.[j].
Proof.
  intros Hn (HB & HD & B0 & D0 & Hlow & _) (Hx & Hlast & Hrec) Hpiv.
  (* every row of [x] in one shape: the right neighbour's term is [t] *)
  assert (Hxj : forall j, (0 <= j < size a)%Z ->
            x.[j] == (D.[j] - (if (j =? size a - 1)%Z then 0 else c.[j] * x.[j + 1])) / B.[j]).
  { intros j Hj. destruct (Z.eqb_spec j (size a - 1)) as [->|Hne].
    - rewrite <- HB, Hlast. field. rewrite HB. apply Hpiv; lia.
    - rewrite (Hrec j) by lia. reflexivity. }
  intros j Hj. unfold row_lhs.
  destruct (Z.eqb_spec j 0) as [->|Hj0].
  - rewrite Qplus_0_l. apply first_row_algebra.
    + rewrite <- B0. apply Hpiv; lia.
    + rewrite (Hxj 0%Z) by lia. rewrite B0, D0. reflexivity.
  - destruct (Hlow j) as [EB ED]; [lia|].
    apply (row_algebra _ _ _ c.[j - 1] _ _ _ B.[j - 1] B.[j] D.[j - 1] D.[j]).
    + apply Hpiv; lia.
    + apply Hpiv; lia.
    + rewrite EB; reflexivity.
    + rewrite ED; reflexivity.
    + rewrite (Hxj (j - 1)%Z) by lia.
      destruct (Z.eqb_spec (j - 1) (size a - 1)); [lia|].
      replace (j - 1 + 1)%Z with j by lia. reflexivity.
    + apply Hxj; lia.
Qed.

(** The rows of the system at the vector that the solver returns. *)
Lemma thomas_solve_rows (a b_ c d : vec) :
  size b_ = size a -> size c = size a -> size d = size a -> (1 <= size a)%Z ->
  pivots_nonzero a b_ c d = true ->
  exists x d',
    thomas_solve a b_ c d = Ok (x, d') /\ size x = size a /\
    forall j, (0 <= j < size a)%Z -> row_lhs a b_ c x j == d.[j].
Proof.
  intros Hb Hc Hd Hn Hp.
  destruct (thomas_solve_runs a b_ c d Hb Hc Hd Hn) as (B & D & x & E & HS & HX & ET).
  exists x, D. split; [exact ET|]. split.
  - destruct HS as (HB & _). destruct HX as (Hx & _). congruence.
  - apply (thomas_rows_of_sweep a b_ c d B D x Hn HS HX).
    intros k Hk. apply (pivots_nonzero_elt a b_ c d B D); auto.
    destruct HS as (HB & _). lia.
Qed.

(** C3. For every tridiagonal system whose pivots stay different from zero
    during the elimination, in exact arithmetic, [thomas_solve] returns a
    vector [x] of the size of the system that satisfies every row equation
    [a[j]*x[j-1] + b[j]*x[j] + c[j]*x[j+1] == d[j]], the first row without
    the left neighbour and the last row without the right one; [d] is the
    right-hand side the caller passed. *)
Theorem thomas_solve_solves (a b_ c d : vec) :
  size b_ = size a -> size c = size a -> size d = size a -> (1 <= size a)%Z ->
  pivots_nonzero a b_ c d = true ->
  exists x d',
    thomas_solve a b_ c d = Ok (x, d') /\ size x = size a /\
    forall j, (0 <= j < size a)%Z -> row_lhs a b_ c x j == d.[j].
Proof.
  intros Hb Hc Hd Hn Hp.
  (* the call runs to its end: pivots [B], swept right-hand side [D] *)
  destruct (thomas_solve_runs a b_ c d Hb Hc Hd Hn) as (B & D & x & E & HS & HX & ET).
  assert (HB : size B = size a) by apply HS.
  assert (Hx : size x = size B) by apply HX.
  exists x, D. split; [exact ET|]. split; [congruence|].
  (* no pivot is zero, so every row can be divided back *)
  assert (Hpiv : forall k, (0 <= k < size a)%Z -> ~ B.[k] == 0).
  { intros k Hk. apply (pivots_nonzero_elt a b_ c d B D); auto. lia. }
  exact (thomas_rows_of_sweep a b_ c d B D x Hn HS HX Hpiv).
Qed.

Lemma thomas_solve_solves_witness :
  exists x d',
    thomas_solve [0; 1; 1] [2; 3; 2] [1; 1; 0] [3; 5; 3] = Ok (x, d') /\
    size x = 3%Z /\
    forall j, (0 <= j < 3)%Z -> row_lhs [0; 1; 1] [2; 3; 2] [1; 1; 0] x j == [3; 5; 3].[j].
Proof.
  apply (thomas_solve_solves [0; 1; 1] [2; 3; 2] [1; 1; 0] [3; 5; 3]);
    try reflexivity.
  vm_compute. discriminate.
Defined.

(** C1. The definition of [thomas_solve] takes [d] by non-const reference
    and runs the forward sweep in it: on the system below the caller's
    right-hand side [1; 1] is [1; 0] after the call. *)
Theorem thomas_solve_overwrites_d :
  Qred_res (thomas_solve [0; 1] [1; 1] [0; 0] [1; 1]) = Ok ([1; 0], [1; 0]).
Proof. vm_compute. reflexivity. Qed.

(** ** lagrange_interpolation *)

Lemma get_fault (v : vec) (j : Z) (e : fault) : get v j = Err e -> e = OutOfBounds.
Proof.
  unfold get. destruct ((0 <=? j)%Z && (j <? size v)%Z); congruence.
Qed.

Lemma bind_fault {A B : Type} (m : res A) (k : A -> res B) (e : fault) :
  bind m k = Err e -> m = Err e \/ exists a, m = Ok a /\ k a = Err e.
Proof. destruct m as [a|e']; simpl; intros H; [right; eauto | left; congruence]. Qed.

Lemma iterate_up_fault {St : Type} (body : Z -> St -> res St) :
  (forall j s e, body j s = Err e -> e = OutOfBounds) ->
  forall count j s e, iterate_up body count j s = Err e -> e = OutOfBounds.
Proof.
  intros Hb. induction count as [|count IH]; intros j s e H; simpl in H.
  - discriminate.
  - apply bind_fault in H. destruct H as [H | [s' [_ H]]]; eauto.
Qed.

Lemma lagrange_factor_fault (x : vec) (x0 : Q) (i j : Z) (t : Q) (e : fault) :
  lagrange_factor x x0 i j t = Err e -> e = OutOfBounds.
Proof.
  unfold lagrange_factor. destruct (j =? i)%Z; [discriminate|]. intros H.
  repeat (apply bind_fault in H; destruct H as [H | [? [_ H]]];
          [now apply get_fault in H|]).
  discriminate.
Qed.

Lemma lagrange_eval_fault (y x : vec) (x0 : Q) (jStar : Z) (n : nat) (e : fault) :
  lagrange_eval y x x0 jStar n = Err e -> e = OutOfBounds.
Proof.
  unfold lagrange_eval. destruct (n =? 1)%nat.
  - apply get_fault.
  - apply iterate_up_fault. intros i t e' H. unfold lagrange_term in H.
    apply bind_fault in H. destruct H as [H | [yi [_ H]]]; [now apply get_fault in H|].
    apply bind_fault in H. destruct H as [H | [? [_ H]]]; [|discriminate].
    revert H. apply iterate_up_fault. intros; eapply lagrange_factor_fault; eauto.
Qed.

(** The body signals the usage error exactly at order zero. *)
Lemma lagrange_body_zero_order (y x : vec) (x0 : Q) (n : nat) :
  lagrange_body y x x0 n = Err ZeroOrder <-> n = 0%nat.
Proof.
  unfold lagrange_body. destruct (Nat.eqb_spec n 0) as [->|Hn].
  - tauto.
  - split; [|contradiction]. intros H.
    repeat (apply bind_fault in H; destruct H as [H | [? [_ H]]];
            [apply get_fault in H; discriminate|]).
    apply lagrange_eval_fault in H. discriminate.
Qed.

(** C6. A call whose order [n] exceeds the number of samples is the body of
    the function run once at the order [length x]: the retried call takes
    no further retry.  It signals the usage error exactly when that
    clamped order is zero. *)
Theorem lagrange_clamps_order (y x : vec) (x0 : Q) (n : nat) :
  (length x < n)%nat ->
  lagrange_interpolation y x x0 n = lagrange_interpolation y x x0 (length x) /\
  lagrange_interpolation y x x0 (length x) = lagrange_body y x x0 (length x) /\
  (lagrange_interpolation y x x0 n = Err ZeroOrder <-> length x = 0%nat).
Proof.
  intros H.
  assert (E1 : lagrange_interpolation y x x0 n
               = lagrange_interpolation y x x0 (length x)).
  { rewrite lagrange_interpolation_equation.
    apply Nat.ltb_lt in H. now rewrite H. }
  assert (E2 : lagrange_interpolation y x x0 (length x)
               = lagrange_body y x x0 (length x)).
  { rewrite lagrange_interpolation_equation. now rewrite Nat.ltb_irrefl. }
  repeat split; auto.
  - rewrite E1, E2. apply lagrange_body_zero_order.
  - rewrite E1, E2. apply lagrange_body_zero_order.
Qed.

Lemma lagrange_clamps_order_witness :
  lagrange_interpolation [1; 2; 3] [0; 1; 2] (1 # 2) 8
  = lagrange_interpolation [1; 2; 3] [0; 1; 2] (1 # 2) 3 /\
  lagrange_interpolation [1; 2; 3] [0; 1; 2] (1 # 2) 3
  = lagrange_body [1; 2; 3] [0; 1; 2] (1 # 2) 3 /\
  (lagrange_interpolation [1; 2; 3] [0; 1; 2] (1 # 2) 8 = Err ZeroOrder <-> 3%nat = 0%nat).
Proof.
  apply (lagrange_clamps_order [1; 2; 3] [0; 1; 2] (1 # 2) 8). simpl. lia.
Defined.

Lemma window_start_range (x0 xfirst dx : Q) (n len : nat) :
  (n <= len)%nat ->
  (0 <= window_start x0 xfirst dx n len <= Z.of_nat len - Z.of_nat n)%Z.
Proof. intros H. unfold window_start. lia. Qed.

Lemma lagrange_eval_runs (y x : vec) (x0 : Q) (jStar : Z) (n : nat) :
  (1 <= n)%nat -> length y = length x ->
  (0 <= jStar <= Z.of_nat (length x) - Z.of_nat n)%Z ->
  exists v, lagrange_eval y x x0 jStar n = Ok v.
Proof.
  intros Hn Hy Hj. unfold lagrange_eval.
  assert (Sy : size y = Z.of_nat (length x)) by (unfold size; lia).
  assert (Sx : size x = Z.of_nat (length x)) by reflexivity.
  destruct (n =? 1)%nat eqn:En.
  - apply Nat.eqb_eq in En. rewrite get_ok by lia. eauto.
  - destruct (for_up_inv (lagrange_term y x x0 jStar n) (fun _ _ => True)
                jStar (jStar + Z.of_nat n) 0) as [v [E _]]; try lia; auto.
    + intros i t Hi _. unfold lagrange_term. rewrite get_ok by lia. cbn [bind].
      destruct (for_up_inv (lagrange_factor x x0 i) (fun _ _ => True)
                  jStar (jStar + Z.of_nat n) y.[i]) as [w [E _]]; try lia; auto.
      * intros j u Hjr _. unfold lagrange_factor.
        destruct (j =? i)%Z; [eauto|]. steps. eauto.
      * rewrite E. cbn [bind]. eauto.
    + eauto.
Qed.

(** C7. For an order [1 <= n <= len(x)] the first index of the stencil is
    in [[0, len(x) - n]], whatever offset and spacing it is computed from,
    and the evaluation over the stencil [jStar .. jStar + n - 1] returns a
    value: no access to [x] or [y] leaves the bounds ([y] has as many
    samples as [x]). *)
Theorem stencil_in_bounds (y x : vec) (x0 xfirst dx : Q) (n : nat) :
  (1 <= n <= length x)%nat -> length y = length x ->
  (0 <= window_start x0 xfirst dx n (length x)
     <= Z.of_nat (length x) - Z.of_nat n)%Z /\
  exists v, lagrange_eval y x x0 (window_start x0 xfirst dx n (length x)) n = Ok v.
Proof.
  intros Hn Hy.
  assert (Hw := window_start_range x0 xfirst dx n (length x) (proj2 Hn)).
  split; [exact Hw|]. apply lagrange_eval_runs; auto. lia.
Qed.

Lemma stencil_in_bounds_witness :
  (0 <= window_start (5 # 2) 1 1 3 (length [1; 2; 3; 4])
     <= Z.of_nat (length [1; 2; 3; 4]) - Z.of_nat 3)%Z /\
  exists v, lagrange_eval [1; 4; 9; 16] [1; 2; 3; 4] (5 # 2)
              (window_start (5 # 2) 1 1 3 (length [1; 2; 3; 4])) 3 = Ok v.
Proof.
  apply (stencil_in_bounds [1; 4; 9; 16] [1; 2; 3; 4] (5 # 2) 1 1 3).
  - simpl; lia.
  - reflexivity.
Defined.

(** C5. With one sample the function reads [x[1]] before it reaches the
    shortcut of order one: the call below leaves the bounds of [x] instead
    of returning the sample [y[0]]. *)
Theorem lagrange_single_sample :
  lagrange_interpolation [5] [1] 1 1 = Err OutOfBounds.
Proof. vm_compute. reflexivity. Qed.

(** C10, as stated, fails at order zero: with one sample the call ends by
    the usage error of line 114, before any access to [x]. *)
Lemma lagrange_single_sample_order_zero :
  length [1] = 1%nat /\ lagrange_interpolation [1] [1] 1 0 = Err ZeroOrder.
Proof. split; vm_compute; reflexivity. Qed.

(** With fewer than two samples the read of [x[1]] leaves the bounds. *)
Lemma lagrange_body_short (y x : vec) (x0 : Q) (m : nat) :
  m <> 0%nat -> (length x < 2)%nat -> lagrange_body y x x0 m = Err OutOfBounds.
Proof.
  intros Hm Hx. unfold lagrange_body.
  destruct (Nat.eqb_spec m 0); [contradiction|].
  rewrite get_out; [reflexivity|]. unfold size. lia.
Qed.

(** C10, amended. [x[1]] is read after the check of the order and before
    the shortcut of order one: every call with an order [n >= 1] on a
    sequence [x] of exactly one sample leaves the bounds, and a call
    returns a value only if [x] has at least two samples. *)
Theorem lagrange_needs_two_samples (y x : vec) (x0 : Q) (n : nat) :
  ((1 <= n)%nat -> length x = 1%nat ->
   lagrange_interpolation y x x0 n = Err OutOfBounds) /\
  (forall v, lagrange_interpolation y x x0 n = Ok v -> (2 <= length x)%nat).
Proof.
  assert (Hbody := lagrange_body_short y x x0).
  split.
  - intros Hn Hx. rewrite lagrange_interpolation_equation.
    destruct (length x <? n)%nat.
    + rewrite lagrange_interpolation_equation, Nat.ltb_irrefl.
      apply Hbody; lia.
    + apply Hbody; lia.
  - intros v H. destruct (le_lt_dec 2 (length x)) as [|Hx]; [assumption|exfalso].
    rewrite lagrange_interpolation_equation in H.
    assert (Hb : forall m, lagrange_body y x x0 m <> Ok v).
    { intros m. destruct (Nat.eq_dec m 0) as [->|Hm].
      - discriminate.
      - rewrite Hbody; auto. discriminate. }
    destruct (length x <? n)%nat.
    + rewrite lagrange_interpolation_equation, Nat.ltb_irrefl in H.
      now apply Hb in H.
    + now apply Hb in H.
Qed.

Lemma lagrange_needs_two_samples_witness :
  lagrange_interpolation [5] [1] 1 4 = Err OutOfBounds /\
  (2 <= length [0; 1; 2])%nat.
Proof.
  split.
  - apply (proj1 (lagrange_needs_two_samples [5] [1] 1 4)); simpl; lia.
  - eapply (proj2 (lagrange_needs_two_samples [1; 2; 3] [0; 1; 2] (1 # 2) 8)).
    vm_compute. reflexivity.
Defined.

(** * Further properties of the solver *)

(** X1. With four vectors of one size [n >= 1] the call returns: the solution
    has [n] entries, and the caller's [d] comes back as the right-hand side
    of the eliminated system, [d'[0] = d[0]] and
    [d'[j] = d[j] - d'[j-1] * a[j] / B[j-1]] over the pivots [B]. *)
Theorem thomas_solve_returns_swept_rhs (a b_ c d : vec) :
  size b_ = size a -> size c = size a -> size d = size a -> (1 <= size a)%Z ->
  exists B x d',
    forward_sweep a b_ c d = Ok (B, d') /\
    thomas_solve a b_ c d = Ok (x, d') /\
    size x = size a /\ size d' = size a /\
    d'.[0] = d.[0] /\
    forall j, (1 <= j < size a)%Z -> d'.[j] = d.[j] - d'.[j - 1] * a.[j] / B.[j - 1].
Proof.
  intros Hb Hc Hd Hn.
  destruct (thomas_solve_runs a b_ c d Hb Hc Hd Hn) as (B & D & x & E & HS & HX & ET).
  destruct HS as (HB & HD & _ & D0 & Hlow & _). destruct HX as (Hx & _).
  exists B, x, D. repeat split; auto; try lia.
  intros j Hj. apply Hlow. exact Hj.
Qed.

Lemma thomas_solve_returns_swept_rhs_witness :
  exists B x d',
    forward_sweep [0; 1; 1] [2; 3; 2] [1; 1; 0] [3; 5; 3] = Ok (B, d') /\
    thomas_solve [0; 1; 1] [2; 3; 2] [1; 1; 0] [3; 5; 3] = Ok (x, d') /\
    size x = 3%Z /\ size d' = 3%Z /\
    d'.[0] = [3; 5; 3].[0] /\
    forall j, (1 <= j < 3)%Z ->
      d'.[j] = [3; 5; 3].[j] - d'.[j - 1] * [0; 1; 1].[j] / B.[j - 1].
Proof.
  apply (thomas_solve_returns_swept_rhs [0; 1; 1] [2; 3; 2] [1; 1; 0] [3; 5; 3]);
    try reflexivity.
  vm_compute. discriminate.
Defined.

Lemma get_inv (v : vec) (j : Z) (q : Q) : get v j = Ok q -> (0 <= j < size v)%Z.
Proof.
  unfold get. destruct (Z.leb_spec 0 j) as [H1|H1];
    destruct (Z.ltb_spec j (size v)) as [H2|H2]; simpl; intros H; try discriminate.
  lia.
Qed.

Lemma set_inv (v : vec) (j : Z) (q : Q) (v' : vec) :
  set v j q = Ok v' -> (0 <= j < size v)%Z /\ size v' = size v.
Proof.
  unfold set. destruct (Z.leb_spec 0 j) as [H1|H1];
    destruct (Z.ltb_spec j (size v)) as [H2|H2]; simpl; intros H; try discriminate.
  injection H as <-. rewrite size_upd. lia.
Qed.

Lemma set_fault (v : vec) (j : Z) (q : Q) (e : fault) :
  set v j q = Err e -> e = OutOfBounds.
Proof.
  unfold set. destruct ((0 <=? j)%Z && (j <? size v)%Z); congruence.
Qed.

Lemma bind_ok {A B : Type} (m : res A) (k : A -> res B) (r : B) :
  bind m k = Ok r -> exists a, m = Ok a /\ k a = Ok r.
Proof. destruct m as [a|e]; simpl; intros H; [eauto | discriminate]. Qed.

(** In a loop that ends well every iteration ended well, from a state that
    satisfies what the iterations preserve. *)
Lemma iterate_up_ok_at {St : Type} (body : Z -> St -> res St) (P : St -> Prop) :
  (forall k t t', P t -> body k t = Ok t' -> P t') ->
  forall count j s s', P s -> iterate_up body count j s = Ok s' ->
    P s' /\
    forall k, (j <= k < j + Z.of_nat count)%Z -> exists t t', P t /\ body k t = Ok t'.
Proof.
  intros Hpres. induction count as [|count IH]; intros j s s' Hs H.
  - simpl in H. injection H as <-. split; [assumption|]. intros k Hk. lia.
  - simpl in H. apply bind_ok in H. destruct H as (s1 & E1 & H).
    assert (Hs1 := Hpres j s s1 Hs E1).
    destruct (IH (j + 1)%Z s1 s' Hs1 H) as [Hs' Hall].
    split; [assumption|]. intros k Hk.
    destruct (Z.eq_dec k j) as [->|Hne]; [eauto|]. apply Hall. lia.
Qed.

Lemma iterate_down_fault_only {St : Type} (body : Z -> St -> res St) :
  (forall j s e, body j s = Err e -> e = OutOfBounds) ->
  forall count j s e, iterate_down body count j s = Err e -> e = OutOfBounds.
Proof.
  intros Hb. induction count as [|count IH]; intros j s e H; simpl in H.
  - discriminate.
  - apply bind_fault in H. destruct H as [H | [s' [_ H]]]; eauto.
Qed.

(** What a step of the sweep that ends well has read and written. *)
Lemma sweep_step_ok (a b_ c : vec) (j : Z) (B D B' D' : vec) :
  sweep_step a b_ c j (B, D) = Ok (B', D') ->
  (j < size b_)%Z /\ (j - 1 < size c)%Z /\ (j < size D)%Z /\ size D' = size D.
Proof.
  unfold sweep_step. intros H.
  apply bind_ok in H. destruct H as (q1 & E1 & H). apply get_inv in E1.
  apply bind_ok in H. destruct H as (q2 & E2 & H). apply get_inv in E2.
  apply bind_ok in H. destruct H as (q3 & _ & H).
  apply bind_ok in H. destruct H as (q4 & _ & H).
  apply bind_ok in H. destruct H as (B1 & _ & H).
  apply bind_ok in H. destruct H as (q5 & E5 & H). apply get_inv in E5.
  apply bind_ok in H. destruct H as (q6 & _ & H).
  apply bind_ok in H. destruct H as (q7 & _ & H).
  apply bind_ok in H. destruct H as (q8 & _ & H).
  apply bind_ok in H. destruct H as (D1 & E9 & H). apply set_inv in E9.
  injection H as <- <-. lia.
Qed.

Lemma sweep_step_fault (a b_ c : vec) (j : Z) (s : vec * vec) (e : fault) :
  sweep_step a b_ c j s = Err e -> e = OutOfBounds.
Proof.
  destruct s as [B D]. unfold sweep_step. intros H.
  repeat (apply bind_fault in H;
          destruct H as [H | [? [_ H]]];
          [first [now apply get_fault in H | now apply set_fault in H]|]).
  discriminate.
Qed.

Lemma forward_sweep_ok (a b_ c d B D : vec) :
  forward_sweep a b_ c d = Ok (B, D) ->
  (1 <= size a)%Z /\ (size a <= size b_)%Z /\ (size a - 1 <= size c)%Z /\
  size D = size d /\ ((2 <= size a)%Z -> (size a <= size d)%Z).
Proof.
  unfold forward_sweep. intros H.
  rewrite vector_ok in H by apply size_nonneg. cbn [bind] in H.
  apply bind_ok in H. destruct H as (q0 & E0 & H). apply get_inv in E0.
  apply bind_ok in H. destruct H as (B0 & E1 & H). apply set_inv in E1.
  rewrite size_repeat in E1 by apply size_nonneg.
  unfold for_up in H.
  destruct (iterate_up_ok_at (sweep_step a b_ c) (fun '(_, D) => size D = size d)) with
    (count := Z.to_nat (size a - 1)) (j := 1%Z) (s := (B0, d)) (s' := (B, D))
    as [HD Hall]; auto.
  { intros k [B1 D1] [B2 D2] HP E. apply sweep_step_ok in E. lia. }
  pose proof (size_nonneg c) as Hc0.
  split; [lia|].
  destruct (Z_le_gt_dec (size a) 1) as [H1|H1].
  - repeat split; try lia.
  - destruct (Hall (size a - 1)%Z) as ([B1 D1] & [B2 D2] & HP & E); [lia|].
    apply sweep_step_ok in E. repeat split; try lia.
Qed.

Lemma forward_sweep_fault (a b_ c d : vec) (e : fault) :
  forward_sweep a b_ c d = Err e -> e = OutOfBounds.
Proof.
  unfold forward_sweep. intros H.
  rewrite vector_ok in H by apply size_nonneg. cbn [bind] in H.
  apply bind_fault in H. destruct H as [H | [? [_ H]]]; [now apply get_fault in H|].
  apply bind_fault in H. destruct H as [H | [? [_ H]]]; [now apply set_fault in H|].
  revert H. apply iterate_up_fault. intros j s e'. apply sweep_step_fault.
Qed.

Lemma back_substitute_fault (n : Z) (b c d : vec) (e : fault) :
  (0 <= n)%Z -> back_substitute n b c d = Err e -> e = OutOfBounds.
Proof.
  unfold back_substitute. intros Hn H.
  rewrite vector_ok in H by assumption. cbn [bind] in H.
  apply bind_fault in H. destruct H as [H | [? [_ H]]]; [now apply get_fault in H|].
  apply bind_fault in H. destruct H as [H | [? [_ H]]]; [now apply get_fault in H|].
  apply bind_fault in H. destruct H as [H | [? [_ H]]]; [now apply set_fault in H|].
  revert H. apply iterate_down_fault_only. intros j s e' H. unfold back_step in H.
  repeat (apply bind_fault in H;
          destruct H as [H | [? [_ H]]]; [now apply get_fault in H|]).
  now apply set_fault in H.
Qed.

(** X2. The sizes that a call needs.  [thomas_solve] returns exactly when [a]
    has at least one row, [b_] and [d] are at least as long as [a], and [c]
    at least as long as [a] less one; the solution then has the size of
    [a] and [d] keeps its size.  Every other call leaves the bounds of a
    vector. *)
Theorem thomas_solve_sizes (a b_ c d : vec) :
  ((exists x d', thomas_solve a b_ c d = Ok (x, d')) <->
   (1 <= size a)%Z /\ (size a <= size b_)%Z /\ (size a - 1 <= size c)%Z /\
   (size a <= size d)%Z) /\
  (forall x d', thomas_solve a b_ c d = Ok (x, d') ->
                size x = size a /\ size d' = size d) /\
  (forall e, thomas_solve a b_ c d = Err e -> e = OutOfBounds).
Proof.
  split; [split|split].
  - intros (x & d' & H). unfold thomas_solve in H. cbv zeta in H.
    apply bind_ok in H. destruct H as ([B D] & EF & H).
    apply bind_ok in H. destruct H as (t & EB & H).
    apply forward_sweep_ok in EF. destruct EF as (H1 & H2 & H3 & HD & H4).
    repeat split; try assumption.
    unfold back_substitute in EB.
    rewrite vector_ok in EB by lia. cbn [bind] in EB.
    apply bind_ok in EB. destruct EB as (q & Eq & _). apply get_inv in Eq. lia.
  - intros (Hn & Hb & Hc & Hd).
    destruct (thomas_solve_runs_wide a b_ c d Hb Hc Hd Hn) as (B & D & x & _ & _ & _ & E).
    eauto.
  - intros x d' H.
    assert (Hs : (1 <= size a)%Z /\ (size a <= size b_)%Z /\ (size a - 1 <= size c)%Z /\
                 (size a <= size d)%Z).
    { unfold thomas_solve in H. cbv zeta in H.
      apply bind_ok in H. destruct H as ([B D] & EF & H).
      apply bind_ok in H. destruct H as (t & EB & H).
      apply forward_sweep_ok in EF. destruct EF as (H1 & H2 & H3 & HD & H4).
      repeat split; try assumption.
      unfold back_substitute in EB.
      rewrite vector_ok in EB by lia. cbn [bind] in EB.
      apply bind_ok in EB. destruct EB as (q & Eq & _). apply get_inv in Eq. lia. }
    destruct Hs as (Hn & Hb & Hc & Hd).
    destruct (thomas_solve_runs_wide a b_ c d Hb Hc Hd Hn)
      as (B & D & x1 & _ & (HB & HD & _) & (Hx & _) & E).
    rewrite E in H. injection H as <- <-. lia.
  - intros e H. unfold thomas_solve in H. cbv zeta in H.
    apply bind_fault in H. destruct H as [H | [[B D] [_ H]]].
    + now apply forward_sweep_fault in H.
    + apply bind_fault in H. destruct H as [H | [? [_ H]]]; [|discriminate].
      apply back_substitute_fault in H; [assumption|apply size_nonneg].
Qed.

Lemma thomas_solve_sizes_witness :
  (exists x d', thomas_solve [0; 1; 1] [2; 3; 2; 9] [1; 1] [3; 5; 3] = Ok (x, d')) /\
  thomas_solve [0; 1; 1] [2; 3; 2] [1; 1; 0] [3; 5] = Err OutOfBounds.
Proof.
  split.
  - apply (proj2 (proj1 (thomas_solve_sizes [0; 1; 1] [2; 3; 2; 9] [1; 1] [3; 5; 3]))).
    vm_compute. repeat split; discriminate.
  - destruct (thomas_solve [0; 1; 1] [2; 3; 2] [1; 1; 0] [3; 5]) as [r|e] eqn:E.
    + vm_compute in E. discriminate.
    + f_equal.
      exact (proj2 (proj2 (thomas_solve_sizes [0; 1; 1] [2; 3; 2] [1; 1; 0] [3; 5])) e E).
Defined.

Lemma dominance_step (a b c cm Bm : Q) :
  Qabs cm < Qabs Bm -> Qabs a + Qabs c < Qabs b ->
  Qabs c < Qabs (b - cm * a / Bm).
Proof.
  intros H1 H2.
  assert (Hv : 0 < Qabs Bm) by (pose proof (Qabs_nonneg cm); lra).
  assert (Ht : Qabs (cm * a / Bm) <= Qabs a).
  { unfold Qdiv. rewrite !Qabs_Qmult, Qabs_Qinv.
    apply Qle_shift_div_r; [assumption|].
    pose proof (Qabs_nonneg a). pose proof (Qabs_nonneg cm). nra. }
  pose proof (Qabs_triangle_reverse b (cm * a / Bm)). lra.
Qed.

(** Under strict dominance every pivot outweighs the super-diagonal entry
    of its row. *)
Lemma dominant_pivots (a b_ c d B D : vec) :
  strictly_dominant a b_ c -> swept a b_ c d (size a) (B, D) ->
  forall m : nat, (Z.of_nat m < size a)%Z ->
    (if (Z.of_nat m =? size a - 1)%Z then 0 else Qabs c.[Z.of_nat m])
    < Qabs B.[Z.of_nat m].
Proof.
  intros Hdom (HB & HD & B0 & D0 & Hlow & _).
  induction m as [|m IH]; intros Hm.
  - specialize (Hdom 0%Z ltac:(lia)). simpl in Hdom. simpl Z.of_nat.
    rewrite B0. rewrite Qplus_0_l in Hdom. exact Hdom.
  - assert (IH' := IH ltac:(lia)).
    destruct (Z.eqb_spec (Z.of_nat m) (size a - 1)) as [|_]; [lia|].
    destruct (Hlow (Z.of_nat (S m))) as [EB _]; [lia|].
    replace (Z.of_nat (S m) - 1)%Z with (Z.of_nat m) in EB by lia.
    rewrite EB.
    specialize (Hdom (Z.of_nat (S m)) ltac:(lia)).
    destruct (Z.eqb_spec (Z.of_nat (S m)) 0) as [|_]; [lia|].
    destruct (Z.eqb_spec (Z.of_nat (S m)) (size a - 1)) as [_|_].
    + assert (H0 : Qabs 0 < Qabs (b_.[Z.of_nat (S m)]
                                   - c.[Z.of_nat m] * a.[Z.of_nat (S m)] / B.[Z.of_nat m])).
      { apply dominance_step; [exact IH'|]. exact Hdom. }
      exact H0.
    + apply dominance_step; [exact IH'|exact Hdom].
Qed.

Lemma forallb_cells (f : Q -> bool) (v : vec) :
  (forall k, (0 <= k < size v)%Z -> f v.[k] = true) -> forallb f v = true.
Proof.
  intros H. apply forallb_forall. intros q Hq.
  destruct (In_nth v q 0 Hq) as (k & Hk & <-).
  specialize (H (Z.of_nat k)). unfold elt, size in H. rewrite Nat2Z.id in H.
  apply H. lia.
Qed.

(** A strictly dominant system has no zero pivot. *)
Lemma dominant_pivots_nonzero (a b_ c d : vec) :
  size b_ = size a -> size c = size a -> size d = size a -> (1 <= size a)%Z ->
  strictly_dominant a b_ c -> pivots_nonzero a b_ c d = true.
Proof.
  intros Hb Hc Hd Hn Hdom.
  destruct (thomas_solve_runs a b_ c d Hb Hc Hd Hn) as (B & D & x & E & HS & _).
  unfold pivots_nonzero. rewrite E. apply forallb_cells. intros k Hk.
  assert (HB : size B = size a) by apply HS.
  assert (H := dominant_pivots a b_ c d B D Hdom HS (Z.to_nat k) ltac:(lia)).
  rewrite Z2Nat.id in H by lia.
  destruct (Qeq_bool B.[k] 0) eqn:Ez; [|reflexivity].
  apply Qeq_bool_iff in Ez. rewrite Ez in H. exfalso.
  assert (Hn0 : 0 <= (if (k =? size a - 1)%Z then 0 else Qabs c.[k])).
  { destruct (k =? size a - 1)%Z; [lra | apply Qabs_nonneg]. }
  change (Qabs 0) with 0 in H. lra.
Qed.

(** X3. For a strictly diagonally dominant system of [n >= 1] rows the
    elimination meets no zero pivot and the returned vector satisfies every
    row equation (exact arithmetic). *)
Theorem thomas_solve_dominant (a b_ c d : vec) :
  size b_ = size a -> size c = size a -> size d = size a -> (1 <= size a)%Z ->
  strictly_dominant a b_ c ->
  pivots_nonzero a b_ c d = true /\
  exists x d',
    thomas_solve a b_ c d = Ok (x, d') /\ size x = size a /\
    forall j, (0 <= j < size a)%Z -> row_lhs a b_ c x j == d.[j].
Proof.
  intros Hb Hc Hd Hn Hdom.
  assert (Hp := dominant_pivots_nonzero a b_ c d Hb Hc Hd Hn Hdom).
  split; [exact Hp|]. now apply thomas_solve_rows.
Qed.

Lemma strictly_dominant_sample : strictly_dominant [0; 1; 1] [3; 3; 2] [1; 1; 0].
Proof.
  intros j Hj. change (size [0; 1; 1]) with 3%Z in *.
  assert (H : j = 0%Z \/ j = 1%Z \/ j = 2%Z) by lia.
  destruct H as [->|[->| ->]]; vm_compute; reflexivity.
Defined.

Lemma thomas_solve_dominant_witness :
  pivots_nonzero [0; 1; 1] [3; 3; 2] [1; 1; 0] [3; 5; 3] = true /\
  exists x d',
    thomas_solve [0; 1; 1] [3; 3; 2] [1; 1; 0] [3; 5; 3] = Ok (x, d') /\
    size x = 3%Z /\
    forall j, (0 <= j < 3)%Z ->
      row_lhs [0; 1; 1] [3; 3; 2] [1; 1; 0] x j == [3; 5; 3].[j].
Proof.
  apply (thomas_solve_dominant [0; 1; 1] [3; 3; 2] [1; 1; 0] [3; 5; 3]);
    try reflexivity.
  - vm_compute. discriminate.
  - exact strictly_dominant_sample.
Defined.

(** * Further properties of the interpolation *)

Lemma to_int_floor (q : Q) : 0 <= q -> to_int q = Qfloor q.
Proof.
  destruct q as [n d]. unfold Qle, to_int, Qfloor. simpl. intros H.
  apply Z.quot_div_nonneg; lia.
Qed.

Lemma to_int_nonneg (q : Q) : 0 <= q -> (0 <= to_int q)%Z.
Proof.
  intros H. rewrite to_int_floor by assumption.
  change 0%Z with (Qfloor 0). now apply Qfloor_resp_le.
Qed.

Lemma lagrange_body_runs (y x : vec) (x0 : Q) (n : nat) :
  (2 <= length x)%nat -> length y = length x -> (1 <= n <= length x)%nat ->
  lagrange_body y x x0 n
  = lagrange_eval y x x0 (window_start x0 x.[0] (x.[1] - x.[0]) n (length x)) n /\
  exists v, lagrange_body y x x0 n = Ok v.
Proof.
  intros Hx Hy Hn. unfold lagrange_body.
  destruct (Nat.eqb_spec n 0); [lia|].
  assert (Sx : size x = Z.of_nat (length x)) by reflexivity.
  steps. split; [reflexivity|].
  apply lagrange_eval_runs; auto; try lia.
  apply window_start_range. lia.
Qed.

(** X4. With at least two samples, as many values as abscissas and an order
    [n >= 1], the call returns a value: the order is clamped to the number
    of samples and no access leaves the bounds. *)
Theorem lagrange_interpolation_returns (y x : vec) (x0 : Q) (n : nat) :
  (2 <= length x)%nat -> length y = length x -> (1 <= n)%nat ->
  exists v,
    lagrange_interpolation y x x0 n = Ok v /\
    lagrange_interpolation y x x0 n = lagrange_body y x x0 (Nat.min n (length x)).
Proof.
  intros Hx Hy Hn. rewrite lagrange_interpolation_equation.
  destruct (Nat.ltb_spec (length x) n) as [Hlt|Hge].
  - rewrite lagrange_interpolation_equation, Nat.ltb_irrefl.
    replace (Nat.min n (length x)) with (length x) by lia.
    destruct (lagrange_body_runs y x x0 (length x)) as [_ [v E]]; auto; try lia.
    eauto.
  - replace (Nat.min n (length x)) with n by lia.
    destruct (lagrange_body_runs y x x0 n) as [_ [v E]]; auto; try lia.
    eauto.
Qed.

Lemma lagrange_interpolation_returns_witness :
  exists v,
    lagrange_interpolation [1; 4; 9] [1; 2; 3] (3 # 2) 8 = Ok v /\
    lagrange_interpolation [1; 4; 9] [1; 2; 3] (3 # 2) 8
    = lagrange_body [1; 4; 9] [1; 2; 3] (3 # 2) (Nat.min 8 (length [1; 2; 3])).
Proof.
  apply (lagrange_interpolation_returns [1; 4; 9] [1; 2; 3] (3 # 2) 8);
    simpl; try reflexivity; lia.
Defined.



(** The term of the node [k] itself: every factor is one. *)
Lemma lagrange_term_own (y x : vec) (x0 : Q) (jStar : Z) (n : nat) (k : Z) (temp : Q) :
  length y = length x ->
  (0 <= jStar <= Z.of_nat (length x) - Z.of_nat n)%Z ->
  (jStar <= k < jStar + Z.of_nat n)%Z ->
  x0 == x.[k] ->
  (forall j, (jStar <= j < jStar + Z.of_nat n)%Z -> j <> k -> ~ x.[j] == x.[k]) ->
  exists t, lagrange_term y x x0 jStar n k temp = Ok t /\ t == temp + y.[k].
Proof.
  intros Hy Hj Hk Hx0 Hd. unfold lagrange_term.
  assert (Sy : size y = Z.of_nat (length x)) by (unfold size; lia).
  assert (Sx : size x = Z.of_nat (length x)) by reflexivity.
  step_get.
  destruct (for_up_inv (lagrange_factor x x0 k) (fun _ t => t == y.[k])
              jStar (jStar + Z.of_nat n) y.[k]) as [t [E Ht]]; try lia.
  - reflexivity.
  - intros j t Hjr Ht. unfold lagrange_factor.
    destruct (Z.eqb_spec j k) as [->|Hne]; [eauto|].
    steps. eexists; split; [reflexivity|].
    rewrite Ht, Hx0. field. intros H0. apply (Hd j Hjr Hne). lra.
  - rewrite E; cbn [bind]. eexists; split; [reflexivity|]. now rewrite Ht.
Qed.

(** The term of another node [i]: the factor of [j = k] is zero. *)
Lemma lagrange_term_other (y x : vec) (x0 : Q) (jStar : Z) (n : nat) (k i : Z) (temp : Q) :
  length y = length x ->
  (0 <= jStar <= Z.of_nat (length x) - Z.of_nat n)%Z ->
  (jStar <= k < jStar + Z.of_nat n)%Z ->
  (jStar <= i < jStar + Z.of_nat n)%Z -> i <> k ->
  x0 == x.[k] ->
  exists t, lagrange_term y x x0 jStar n i temp = Ok t /\ t == temp.
Proof.
  intros Hy Hj Hk Hi Hik Hx0. unfold lagrange_term.
  assert (Sy : size y = Z.of_nat (length x)) by (unfold size; lia).
  assert (Sx : size x = Z.of_nat (length x)) by reflexivity.
  step_get.
  destruct (for_up_inv (lagrange_factor x x0 i) (fun j t => (k < j)%Z -> t == 0)
              jStar (jStar + Z.of_nat n) y.[i]) as [t [E Ht]]; try lia.
  - intros j t Hjr Ht. unfold lagrange_factor.
    destruct (Z.eqb_spec j i) as [->|Hne].
    + eexists; split; [reflexivity|]. intros Hlt. apply Ht. lia.
    + steps. eexists; split; [reflexivity|]. intros Hlt.
      destruct (Z.eq_dec j k) as [->|Hjk].
      * rewrite Hx0. unfold Qdiv, Qminus. rewrite Qplus_opp_r. ring.
      * rewrite Ht by lia. ring.
  - rewrite E; cbn [bind]. eexists; split; [reflexivity|].
    rewrite Ht by lia. ring.
Qed.

(** The value at a node of the stencil, term by term. *)
Lemma lagrange_eval_node (y x : vec) (x0 : Q) (jStar : Z) (n : nat) (k : Z) :
  (1 <= n)%nat -> length y = length x ->
  (0 <= jStar <= Z.of_nat (length x) - Z.of_nat n)%Z ->
  (jStar <= k < jStar + Z.of_nat n)%Z ->
  x0 == x.[k] ->
  (forall j, (jStar <= j < jStar + Z.of_nat n)%Z -> j <> k -> ~ x.[j] == x.[k]) ->
  exists v, lagrange_eval y x x0 jStar n = Ok v /\ v == y.[k].
Proof.
  intros Hn Hy Hj Hk Hx0 Hd. unfold lagrange_eval.
  destruct (Nat.eqb_spec n 1) as [->|Hn1].
  - replace k with jStar by lia. rewrite get_ok by (unfold size; lia).
    eexists; split; reflexivity.
  - destruct (for_up_inv (lagrange_term y x x0 jStar n)
                (fun i temp => temp == if (k <? i)%Z then y.[k] else 0)
                jStar (jStar + Z.of_nat n) 0) as [v [E Hv]]; try lia.
    + destruct (Z.ltb_spec k jStar); [lia|reflexivity].
    + intros i temp Hi Ht.
      destruct (Z.eq_dec i k) as [->|Hik].
      * destruct (lagrange_term_own y x x0 jStar n k temp) as [t [E Et]]; auto.
        exists t. split; [exact E|]. rewrite Et, Ht.
        destruct (Z.ltb_spec k k); [lia|]. destruct (Z.ltb_spec k (k + 1)); [|lia]. ring.
      * destruct (lagrange_term_other y x x0 jStar n k i temp) as [t [E Et]]; auto.
        exists t. split; [exact E|]. rewrite Et, Ht.
        destruct (Z.ltb_spec k i); destruct (Z.ltb_spec k (i + 1)); try lia; reflexivity.
    + exists v. split; [exact E|]. rewrite Hv.
      destruct (Z.ltb_spec k (jStar + Z.of_nat n)); [reflexivity|lia].
Qed.



Lemma lagrange_interpolation_min (y x : vec) (x0 : Q) (n : nat) :
  lagrange_interpolation y x x0 n = lagrange_body y x x0 (Nat.min n (length x)).
Proof.
  rewrite lagrange_interpolation_equation.
  destruct (Nat.ltb_spec (length x) n) as [Hlt|Hge].
  - rewrite lagrange_interpolation_equation, Nat.ltb_irrefl.
    now replace (Nat.min n (length x)) with (length x) by lia.
  - now replace (Nat.min n (length x)) with n by lia.
Qed.

Lemma floor_unique (q : Q) (k : Z) :
  inject_Z k <= q -> q < inject_Z (k + 1) -> Qfloor q = k.
Proof.
  intros H1 H2.
  assert (L := Qfloor_le q). assert (U := Qlt_floor q).
  assert (A : (Qfloor q < k + 1)%Z).
  { rewrite Zlt_Qlt. eapply Qle_lt_trans; eassumption. }
  assert (B : (k < Qfloor q + 1)%Z).
  { rewrite Zlt_Qlt. eapply Qle_lt_trans; eassumption. }
  lia.
Qed.

Lemma half_bounds (n : nat) :
  (1 <= n)%nat ->
  (0 <= Z.of_nat (n / 2) <= Z.of_nat n - 1)%Z /\
  (Nat.even n = true -> 1 <= Z.of_nat (n / 2))%Z.
Proof.
  intros Hn. pose proof (Nat.div_mod_eq n 2) as E.
  pose proof (Nat.mod_upper_bound n 2 ltac:(lia)) as U.
  split; [lia|]. intros Hev.
  destruct n as [|[|n]]; [lia | discriminate |].
  assert (1 <= S (S n) / 2)%nat by (apply Nat.div_le_lower_bound; lia). lia.
Qed.

(** The raw index [k - c] of lines 122-123, once clamped, starts a stencil
    that holds [k]. *)
Lemma clamped_window_holds (k c : Z) (n len : nat) :
  (1 <= n <= len)%nat -> (0 <= k < Z.of_nat len)%Z -> (0 <= c <= Z.of_nat n - 1)%Z ->
  let jStar := Z.min (Z.of_nat len - Z.of_nat n) (Z.max 0 (k - c)) in
  (jStar <= k < jStar + Z.of_nat n)%Z.
Proof. intros Hn Hk Hc jStar. unfold jStar. lia. Qed.

(** On a grid of constant spacing the stencil of a query point that is the
    node [k] holds [k]. *)
Lemma window_start_at_node (x0 xfirst dx : Q) (n len : nat) (k : Z) :
  (1 <= n <= len)%nat -> (0 <= k < Z.of_nat len)%Z ->
  ~ dx == 0 -> x0 == xfirst + inject_Z k * dx ->
  (window_start x0 xfirst dx n len <= k < window_start x0 xfirst dx n len + Z.of_nat n)%Z.
Proof.
  intros Hn Hk Hdx Hx0.
  assert (Hu : (x0 - xfirst) / dx == inject_Z k) by (rewrite Hx0; field; assumption).
  assert (Hk0 : 0 <= inject_Z k) by (change 0 with (inject_Z 0); rewrite <- Zle_Qle; lia).
  destruct (half_bounds n (proj1 Hn)) as [Hh Hev].
  unfold window_start. destruct (Nat.even n) eqn:En.
  - rewrite to_int_floor by (rewrite Hu; assumption).
    rewrite (Qfloor_comp _ _ Hu), Qfloor_Z.
    apply clamped_window_holds; auto. specialize (Hev eq_refl). lia.
  - rewrite to_int_floor by (rewrite Hu; lra).
    rewrite (floor_unique _ k).
    + apply clamped_window_holds; auto.
    + rewrite Hu. lra.
    + rewrite Hu, inject_Z_plus. change (inject_Z 1) with 1. lra.
Qed.

(** X7. On a grid of constant non-zero spacing, with at least two samples and
    an order [n >= 1], the interpolation at a node returns the sample of
    that node. *)
Theorem lagrange_interpolation_at_node (y x : vec) (x0 : Q) (n : nat) (k : Z) :
  (2 <= length x)%nat -> length y = length x -> (1 <= n)%nat ->
  ~ x.[1] - x.[0] == 0 ->
  (forall j, (0 <= j < Z.of_nat (length x))%Z ->
             x.[j] == x.[0] + inject_Z j * (x.[1] - x.[0])) ->
  (0 <= k < Z.of_nat (length x))%Z -> x0 == x.[k] ->
  exists v, lagrange_interpolation y x x0 n = Ok v /\ v == y.[k].
Proof.
  intros Hx Hy Hn Hdx Hgrid Hk Hx0.
  rewrite lagrange_interpolation_min.
  set (m := Nat.min n (length x)).
  assert (Hm : (1 <= m <= length x)%nat) by (unfold m; lia).
  destruct (lagrange_body_runs y x x0 m Hx Hy Hm) as [E _]. rewrite E.
  assert (Hw := window_start_range x0 x.[0] (x.[1] - x.[0]) m (length x) (proj2 Hm)).
  assert (Hin := window_start_at_node x0 x.[0] (x.[1] - x.[0]) m (length x) k Hm Hk Hdx
                   ltac:(rewrite Hx0; apply Hgrid; exact Hk)).
  apply lagrange_eval_node with (k := k); auto; try lia.
  intros j Hj Hne Heq.
  rewrite (Hgrid j), (Hgrid k) in Heq by lia.
  assert (Hjk : inject_Z j * (x.[1] - x.[0]) == inject_Z k * (x.[1] - x.[0])) by lra.
  apply Qmult_inj_r in Hjk; [|assumption].
  apply Hne. unfold Qeq in Hjk. simpl in Hjk. lia.
Qed.

Lemma uniform_sample : forall j, (0 <= j < 4)%Z ->
  [1; 3; 5; 7].[j] == [1; 3; 5; 7].[0] + inject_Z j * ([1; 3; 5; 7].[1] - [1; 3; 5; 7].[0]).
Proof.
  intros j Hj. assert (H : j = 0%Z \/ j = 1%Z \/ j = 2%Z \/ j = 3%Z) by lia.
  destruct H as [->|[->|[->| ->]]]; vm_compute; reflexivity.
Defined.

Lemma lagrange_interpolation_at_node_witness :
  exists v, lagrange_interpolation [2; 0; 9; 4] [1; 3; 5; 7] 5 8 = Ok v /\ v == [2; 0; 9; 4].[2].
Proof.
  apply (lagrange_interpolation_at_node [2; 0; 9; 4] [1; 3; 5; 7] 5 8 2).
  - simpl; lia.
  - reflexivity.
  - lia.
  - vm_compute. discriminate.
  - exact uniform_sample.
  - simpl; lia.
  - reflexivity.
Defined.

Lemma even_half (n : nat) :
  (if Nat.even n then n = 2 * (n / 2) else n = 2 * (n / 2) + 1)%nat.
Proof.
  pose proof (Nat.div_mod_eq n 2) as E.
  pose proof (Nat.mod_upper_bound n 2 ltac:(lia)) as U.
  destruct (Nat.even n) eqn:En.
  - apply Nat.even_spec in En. destruct En as [m Hm].
    assert (n mod 2 = 0)%nat.
    { subst n. rewrite Nat.mul_comm. apply Nat.Div0.mod_mul. }
    lia.
  - assert (Ho : Nat.odd n = true) by (rewrite <- Nat.negb_even, En; reflexivity).
    apply Nat.odd_spec in Ho. destruct Ho as [m Hm].
    assert (n mod 2 <> 0)%nat.
    { intros H0. assert (n = 2 * (n / 2))%nat by lia. lia. }
    lia.
Qed.

(** The position [u] of the query point in units of the spacing lies
    between the first and the last index of the stencil. *)
Lemma window_start_around (u : Q) (n len : nat) (jStar : Z) :
  (2 <= n <= len)%nat -> 0 <= u -> u <= inject_Z (Z.of_nat len - 1) ->
  jStar = Z.min (Z.of_nat len - Z.of_nat n)
            (Z.max 0 (if Nat.even n then (Qfloor u - (Z.of_nat (n / 2) - 1))%Z
                      else (Qfloor (u + 0.5) - Z.of_nat (n / 2))%Z)) ->
  inject_Z jStar <= u /\ u <= inject_Z (jStar + Z.of_nat n - 1).
Proof.
  intros Hn H0 Hmax Hj.
  pose proof (even_half n) as Hh.
  assert (F0 : (0 <= Qfloor u)%Z).
  { change 0%Z with (Qfloor 0). now apply Qfloor_resp_le. }
  assert (L := Qfloor_le u). assert (U := Qlt_floor u).
  assert (L' := Qfloor_le (u + 0.5)). assert (U' := Qlt_floor (u + 0.5)).
  rewrite inject_Z_plus in U, U'. change (inject_Z 1) with 1 in U, U'.
  destruct (Nat.even n).
  - split.
    + apply Qle_trans with (inject_Z (Qfloor u)); [|exact L].
      rewrite <- Zle_Qle. lia.
    + destruct (Z.eq_dec jStar (Z.of_nat len - Z.of_nat n)) as [E|E].
      * replace (jStar + Z.of_nat n - 1)%Z with (Z.of_nat len - 1)%Z by lia. exact Hmax.
      * apply Qle_trans with (inject_Z (Qfloor u) + 1); [lra|].
        replace (inject_Z (Qfloor u) + 1) with (inject_Z (Qfloor u + 1))
          by (rewrite inject_Z_plus; reflexivity).
        rewrite <- Zle_Qle. lia.
  - split.
    + destruct (Z_le_gt_dec jStar 0) as [E|E].
      * apply Qle_trans with 0; [|exact H0].
        change 0 with (inject_Z 0). rewrite <- Zle_Qle. exact E.
      * apply Qle_trans with (inject_Z (Qfloor (u + 0.5)) - 1); [|lra].
        replace (inject_Z (Qfloor (u + 0.5)) - 1) with (inject_Z (Qfloor (u + 0.5) + - 1))
          by (rewrite inject_Z_plus; reflexivity).
        rewrite <- Zle_Qle. lia.
    + destruct (Z.eq_dec jStar (Z.of_nat len - Z.of_nat n)) as [E|E].
      * replace (jStar + Z.of_nat n - 1)%Z with (Z.of_nat len - 1)%Z by lia. exact Hmax.
      * apply Qle_trans with (inject_Z (Qfloor (u + 0.5)) + 1); [lra|].
        replace (inject_Z (Qfloor (u + 0.5)) + 1) with (inject_Z (Qfloor (u + 0.5) + 1))
          by (rewrite inject_Z_plus; reflexivity).
        rewrite <- Zle_Qle. lia.
Qed.

(** X8. No extrapolation inside the grid: for an order [n >= 2], a positive
    spacing [dx] and a query point between the first node [xfirst] and the
    last node [xfirst + (len - 1) * dx], the stencil brackets the query
    point, [xfirst + jStar * dx <= x0 <= xfirst + (jStar + n - 1) * dx]. *)
Theorem window_start_brackets (x0 xfirst dx : Q) (n len : nat) :
  (2 <= n <= len)%nat -> 0 < dx ->
  xfirst <= x0 -> x0 <= xfirst + inject_Z (Z.of_nat len - 1) * dx ->
  xfirst + inject_Z (window_start x0 xfirst dx n len) * dx <= x0 /\
  x0 <= xfirst + inject_Z (window_start x0 xfirst dx n len + Z.of_nat n - 1) * dx.
Proof.
  intros Hn Hdx Hlo Hhi.
  set (u := (x0 - xfirst) / dx).
  assert (Hx : x0 == xfirst + u * dx) by (unfold u; field; lra).
  assert (H0 : 0 <= u).
  { unfold u. apply Qle_shift_div_l; [assumption|]. lra. }
  assert (Hmax : u <= inject_Z (Z.of_nat len - 1)).
  { unfold u. apply Qle_shift_div_r; [assumption|]. lra. }
  destruct (window_start_around u n len (window_start x0 xfirst dx n len) Hn H0 Hmax)
    as [A B].
  { unfold window_start. fold u.
    rewrite (to_int_floor u) by assumption.
    rewrite (to_int_floor (u + 0.5)) by lra. reflexivity. }
  split.
  - rewrite Hx at 2. apply Qplus_le_r. apply Qmult_le_compat_r; [exact A|lra].
  - rewrite Hx at 1. apply Qplus_le_r. apply Qmult_le_compat_r; [exact B|lra].
Qed.

Lemma window_start_brackets_witness :
  0 + inject_Z (window_start (101 # 2) 0 (5 # 2) 8 101) * (5 # 2) <= 101 # 2 /\
  101 # 2 <= 0 + inject_Z (window_start (101 # 2) 0 (5 # 2) 8 101 + Z.of_nat 8 - 1) * (5 # 2).
Proof.
  apply (window_start_brackets (101 # 2) 0 (5 # 2) 8 101).
  - lia.
  - reflexivity.
  - vm_compute. discriminate.
  - vm_compute. discriminate.
Defined.

(** ** crank_nicolson: the system of a time layer and its penalty *)

Lemma Qltb_lt (x y : Q) : Qltb x y = true <-> x < y.
Proof.
  unfold Qltb. rewrite negb_true_iff. split.
  - intros H. apply Qnot_le_lt. intros Hle.
    apply Qle_bool_iff in Hle. congruence.
  - intros H. destruct (Qle_bool y x) eqn:E; auto.
    apply Qle_bool_iff in E. exfalso. revert E. now apply Qlt_not_le.
Qed.

Lemma for_up_inv_max {St : Type} (body : Z -> St -> res St)
    (P : Z -> St -> Prop) (lo hi : Z) (s : St) :
  P lo s ->
  (forall k t, (lo <= k < hi)%Z -> P k t ->
               exists t', body k t = Ok t' /\ P (k + 1)%Z t') ->
  exists s', for_up body lo hi s = Ok s' /\ P (Z.max lo hi) s'.
Proof.
  intros H0 Hstep. destruct (Z_le_gt_dec lo hi) as [Hle|Hgt].
  - replace (Z.max lo hi) with hi by lia. now apply for_up_inv.
  - exists s. rewrite for_up_skip by lia. replace (Z.max lo hi) with lo by lia. auto.
Qed.

Section PricerProperties.
Variable exp : Q -> Q.
Variable pow : Q -> Q -> Q.
Variables T F R r kappa mu S0 X C alpha beta sigma : Q.
Variables i_max j_max : Z.
Variables S_max rho tol : Q.
Variable iter_max : Z.

Local Abbreviation dS_ := (dS j_max S_max).
Local Abbreviation dt_ := (dt T i_max).
Local Abbreviation interior_row_ :=
  (interior_row exp pow T r kappa mu X C alpha beta sigma i_max j_max S_max).
Local Abbreviation assemble_ :=
  (assemble exp pow T R r kappa mu X C alpha beta sigma i_max j_max S_max).
Local Abbreviation spec_sub_diagonal_ :=
  (spec_sub_diagonal exp pow T kappa mu X beta sigma i_max j_max S_max).
Local Abbreviation spec_diagonal_ := (spec_diagonal pow T r beta sigma i_max j_max S_max).
Local Abbreviation spec_super_diagonal_ :=
  (spec_super_diagonal exp pow T kappa mu X beta sigma i_max j_max S_max).
Local Abbreviation spec_rhs_neighbours_ :=
  (spec_rhs_neighbours exp pow T r kappa mu X beta sigma i_max j_max S_max).
Local Abbreviation penalty_step_ := (penalty_step R rho).
Local Abbreviation apply_penalty_ := (apply_penalty R j_max rho).

(** The interior rows below [j] are filled; the sizes and the first row
    are those of the state [s0] before the loop. *)
Let rows_filled (i : Z) (v_old : vec) (s0 : system) (j : Z) (s : system) : Prop :=
  let '(a0, b0, c0, d0) := s0 in
  let '(a, b, c, d) := s in
  size a = (j_max + 1)%Z /\ size b = (j_max + 1)%Z /\
  size c = (j_max + 1)%Z /\ size d = (j_max + 1)%Z /\
  (a.[0] = a0.[0] /\ b.[0] = b0.[0] /\ c.[0] = c0.[0] /\ d.[0] = d0.[0]) /\
  forall k, (1 <= k < j)%Z ->
    a.[k] = spec_sub_diagonal_ i k /\
    b.[k] = spec_diagonal_ k /\
    c.[k] = spec_super_diagonal_ i k /\
    d.[k] = spec_rhs_neighbours_ i k v_old + C * exp (- alpha * inject_Z i * dt_).

Lemma interior_row_filled (i : Z) (v_old : vec) (s0 : system) (j : Z) (s : system) :
  size v_old = (j_max + 1)%Z -> (1 <= j < j_max)%Z ->
  rows_filled i v_old s0 j s ->
  exists s', interior_row_ i v_old j s = Ok s' /\ rows_filled i v_old s0 (j + 1) s'.
Proof.
  intros Hv Hj. destruct s0 as [[[a0 b0] c0] d0]. destruct s as [[[a b] c] d].
  intros (Ha & Hb & Hc & Hd & H0 & Hrows).
  unfold interior_row. steps.
  eexists; split; [reflexivity|].
  unfold rows_filled. rewrite !size_upd. rewrite !(elt_upd_other j 0) by lia.
  do 4 (split; [assumption|]). split; [exact H0|].
  intros k Hk. destruct (Z.eq_dec k j) as [->|Hne].
  - rewrite !elt_upd_same by lia. repeat split; reflexivity.
  - rewrite !elt_upd_other by lia. apply Hrows. lia.
Qed.

(** The system of a layer, row by row. *)
Lemma assemble_rows (S : vec) (i : Z) (v_old : vec) :
  (0 <= j_max)%Z -> size S = (j_max + 1)%Z -> size v_old = (j_max + 1)%Z ->
  exists a b c d,
    assemble_ S i v_old = Ok (a, b, c, d) /\
    (size a = (j_max + 1)%Z /\ size b = (j_max + 1)%Z /\
     size c = (j_max + 1)%Z /\ size d = (j_max + 1)%Z) /\
    ((1 <= j_max)%Z ->
     a.[0] = 0 /\
     b.[0] = - (1 / dt_) - (kappa * theta exp mu X dt_ i / dS_) - (r / 2) /\
     c.[0] = kappa * theta exp mu X dt_ i / dS_ /\
     d.[0] = (- (1 / dt_) + (r / 2)) * v_old.[0] - C * exp (inject_Z (- i) * dt_)) /\
    (forall j, (1 <= j <= j_max - 1)%Z ->
       a.[j] = spec_sub_diagonal_ i j /\
       b.[j] = spec_diagonal_ j /\
       c.[j] = spec_super_diagonal_ i j /\
       d.[j] = spec_rhs_neighbours_ i j v_old + C * exp (- alpha * inject_Z i * dt_)) /\
    (a.[j_max] = 0 /\ b.[j_max] = 1 /\ c.[j_max] = 0 /\ d.[j_max] = R * S.[j_max]).
Proof.
  intros Hj HS Hv. unfold assemble.
  rewrite !vector_ok by lia; cbn [bind].
  assert (Hr := size_repeat (j_max + 1) ltac:(lia)).
  repeat (rewrite set_ok by (rewrite ?size_upd, Hr; lia); cbn [bind]).
  step_get.
  rewrite set_ok by (rewrite ?size_upd, Hr; lia); cbn [bind].
  match goal with
  | |- context [for_up _ 1 _ ?s0] =>
      destruct (for_up_inv_max (interior_row_ i v_old) (rows_filled i v_old s0)
                  1 (j_max - 1 + 1) s0)
        as [[[[a b] c] d] [E (Ha & Hb & Hc & Hd & H0 & Hrows)]]
  end.
  - unfold rows_filled. rewrite !size_upd, Hr. repeat split; auto; lia.
  - intros k t Hk. apply interior_row_filled; auto. lia.
  - rewrite E; cbn [bind]. steps.
    do 4 eexists; split; [reflexivity|].
    rewrite !size_upd. split; [auto|]. split; [|split].
    + intros H1. rewrite !elt_upd_other by lia.
      destruct H0 as (A0 & B0 & C0 & D0). rewrite A0, B0, C0, D0.
      rewrite !elt_upd_same by (rewrite Hr; lia). auto.
    + intros j Hjr. rewrite !elt_upd_other by lia. apply Hrows. lia.
    + rewrite !elt_upd_same by lia. auto.
Qed.

(** C4. For a layer [i] and values [v_old] on the grid the assembly
    returns a system whose interior rows [1 <= j <= j_max - 1] carry the
    coefficients of the specification: sub-diagonal, diagonal and
    super-diagonal as given there with [theta(i) = (1+mu)*X*exp(mu*i*dt)],
    and a right-hand side that adds the coupon term
    [C * exp(-alpha*i*dt)] to the neighbours' terms. *)
Theorem assemble_interior_rows (S : vec) (i : Z) (v_old : vec) :
  (0 <= j_max)%Z -> size S = (j_max + 1)%Z -> size v_old = (j_max + 1)%Z ->
  exists a b c d,
    assemble_ S i v_old = Ok (a, b, c, d) /\
    forall j, (1 <= j <= j_max - 1)%Z ->
      a.[j] = -0.25 * pow sigma 2 * pow (inject_Z j) (2 * beta) * pow dS_ (2 * (beta - 1))
              + (kappa / (4 * dS_))
                * ((1 + mu) * X * exp (mu * inject_Z i * dt_) - inject_Z j * dS_) /\
      b.[j] = (1 / dt_) + 0.5 * pow sigma 2 * pow (inject_Z j) (2 * beta)
                          * pow dS_ (2 * (beta - 1)) + r / 2 /\
      c.[j] = -0.25 * pow sigma 2 * pow (inject_Z j) (2 * beta) * pow dS_ (2 * (beta - 1))
              - (kappa / (4 * dS_))
                * ((1 + mu) * X * exp (mu * inject_Z i * dt_) - inject_Z j * dS_) /\
      d.[j] = spec_rhs_neighbours_ i j v_old + C * exp (- alpha * inject_Z i * dt_).
Proof.
  intros Hj HS Hv.
  destruct (assemble_rows S i v_old Hj HS Hv) as (a & b & c & d & E & _ & _ & H & _).
  exists a, b, c, d. split; [exact E|]. exact H.
Qed.

(** The penalty has been applied to the rows below [j]. *)
Let penalised (S v_new b d : vec) (j : Z) (s : vec * vec) : Prop :=
  let '(b_hat, d_hat) := s in
  size b_hat = size b /\ size d_hat = size d /\
  forall k, (0 <= k <= j_max)%Z ->
    ((1 <= k < j)%Z /\ v_new.[k] < R * S.[k] ->
     b_hat.[k] = b.[k] + rho /\ d_hat.[k] = d.[k] + rho * (R * S.[k])) /\
    (~ ((1 <= k < j)%Z /\ v_new.[k] < R * S.[k]) ->
     b_hat.[k] = b.[k] /\ d_hat.[k] = d.[k]).

Lemma penalty_step_penalised (S v_new b d : vec) (j : Z) (s : vec * vec) :
  size S = (j_max + 1)%Z -> size v_new = (j_max + 1)%Z ->
  size b = (j_max + 1)%Z -> size d = (j_max + 1)%Z ->
  (1 <= j < j_max)%Z -> penalised S v_new b d j s ->
  exists s', penalty_step_ S v_new b d j s = Ok s' /\ penalised S v_new b d (j + 1) s'.
Proof.
  intros HS Hv Hb Hd Hj. destruct s as [b_hat d_hat]. intros (Hbh & Hdh & H).
  unfold penalty_step. steps.
  destruct (Qltb v_new.[j] (R * S.[j])) eqn:E.
  - steps. eexists; split; [reflexivity|].
    unfold penalised. rewrite !size_upd. split; [auto|]. split; [auto|].
    intros k Hk. destruct (Z.eq_dec k j) as [->|Hne].
    + rewrite !elt_upd_same by lia. split.
      * intros _. split; reflexivity.
      * intros Hn. exfalso. apply Hn. split; [lia|]. now apply Qltb_lt.
    + rewrite !elt_upd_other by lia. destruct (H k Hk) as [H1 H2]. split.
      * intros [Hr Hlt]. apply H1. split; [lia|auto].
      * intros Hn. apply H2. intros [Hr Hlt]. apply Hn. split; [lia|auto].
  - eexists; split; [reflexivity|].
    unfold penalised. split; [auto|]. split; [auto|].
    intros k Hk. destruct (H k Hk) as [H1 H2]. split.
    + intros [Hr Hlt]. destruct (Z.eq_dec k j) as [->|Hne].
      * apply Qltb_lt in Hlt. congruence.
      * apply H1. split; [lia|auto].
    + intros Hn. apply H2. intros [Hr Hlt]. apply Hn. split; [lia|auto].
Qed.

(** The penalty loop on the copy of the system. *)
Lemma apply_penalty_penalised (S v_new a b c d : vec) :
  size S = (j_max + 1)%Z -> size v_new = (j_max + 1)%Z ->
  size b = (j_max + 1)%Z -> size d = (j_max + 1)%Z ->
  exists b_hat d_hat,
    apply_penalty_ S v_new (a, b, c, d) = Ok (a, b_hat, c, d_hat) /\
    penalised S v_new b d (Z.max 1 j_max) (b_hat, d_hat).
Proof.
  intros HS Hv Hb Hd. unfold apply_penalty.
  destruct (for_up_inv_max (penalty_step_ S v_new b d) (penalised S v_new b d)
              1 j_max (b, d)) as [[b_hat d_hat] [E H]].
  - unfold penalised. split; [auto|]. split; [auto|]. intros k Hk. split.
    + intros [? _]; lia.
    + auto.
  - intros k t Hk. apply penalty_step_penalised; auto.
  - rewrite E; cbn [bind]. exists b_hat, d_hat. split; [reflexivity|exact H].
Qed.

(** C8. The penalty step returns the copy of the base system in which, at
    every interior node [1 <= j <= j_max - 1] whose candidate value is
    strictly below [R * S[j]], the diagonal is [b[j] + rho] and the
    right-hand side [d[j] + rho * (R * S[j])]; every other entry of the
    diagonal and of the right-hand side, the two boundary rows among
    them, and the whole sub- and super-diagonals are those of the base
    system. *)
Theorem apply_penalty_frame (S v_new a b c d : vec) :
  size S = (j_max + 1)%Z -> size v_new = (j_max + 1)%Z ->
  size b = (j_max + 1)%Z -> size d = (j_max + 1)%Z ->
  exists b_hat d_hat,
    apply_penalty_ S v_new (a, b, c, d) = Ok (a, b_hat, c, d_hat) /\
    size b_hat = size b /\ size d_hat = size d /\
    forall j, (0 <= j <= j_max)%Z ->
      ((1 <= j <= j_max - 1)%Z /\ v_new.[j] < R * S.[j] ->
       b_hat.[j] = b.[j] + rho /\ d_hat.[j] = d.[j] + rho * (R * S.[j])) /\
      (~ ((1 <= j <= j_max - 1)%Z /\ v_new.[j] < R * S.[j]) ->
       b_hat.[j] = b.[j] /\ d_hat.[j] = d.[j]).
Proof.
  intros HS Hv Hb Hd.
  destruct (apply_penalty_penalised S v_new a b c d HS Hv Hb Hd)
    as (b_hat & d_hat & E & Hbh & Hdh & H).
  exists b_hat, d_hat.
  split; [exact E|]. split; [auto|]. split; [auto|].
  (* the loop has covered the rows below [max 1 j_max]: the interior rows *)
  intros j Hj. destruct (H j Hj) as [H1 H2]. split.
  - intros [Hr Hlt]. apply H1. split; [lia|auto].
  - intros Hn. apply H2. intros [Hr Hlt]. apply Hn. split; [lia|auto].
Qed.

(** *** The grid, the terminal values and a pass of the iteration *)

Local Abbreviation init_grid_ := (init_grid j_max S_max).
Local Abbreviation init_values_ := (init_values F R j_max).
Local Abbreviation squared_error_ := (squared_error pow j_max).
Local Abbreviation penalty_pass_ := (penalty_pass pow R j_max rho).
Local Abbreviation penalty_loop_ := (penalty_loop pow R j_max rho tol).
Local Abbreviation stalls_ := (stalls pow R j_max rho tol).
Local Abbreviation time_layer_ :=
  (time_layer exp pow T R r kappa mu X C alpha beta sigma i_max j_max S_max rho tol
              iter_max).
Local Abbreviation time_march_ :=
  (time_march exp pow T R r kappa mu X C alpha beta sigma i_max j_max S_max rho tol
              iter_max).
Local Abbreviation crank_nicolson_ :=
  (crank_nicolson exp pow T F R r kappa mu S0 X C alpha beta sigma i_max j_max S_max
                  rho tol iter_max).

Lemma init_grid_nodes :
  (0 <= j_max)%Z ->
  exists S, init_grid_ = Ok S /\ size S = (j_max + 1)%Z /\
            forall j, (0 <= j <= j_max)%Z -> S.[j] = inject_Z j * dS_.
Proof.
  intros Hj. unfold init_grid. rewrite vector_ok by lia; cbn [bind].
  destruct (for_up_inv (fun j S => set S j (inject_Z j * dS_))
              (fun j S => size S = (j_max + 1)%Z /\
                          forall k, (0 <= k < j)%Z -> S.[k] = inject_Z k * dS_)
              0 (j_max + 1) (repeat 0 (Z.to_nat (j_max + 1)))) as [S [E [H1 H2]]].
  - lia.
  - split; [apply size_repeat; lia | intros; lia].
  - intros k S Hk [HS H]. rewrite set_ok by lia.
    eexists; split; [reflexivity|]. rewrite size_upd. split; [assumption|].
    intros k' Hk'. destruct (Z.eq_dec k' k) as [->|Hne].
    + rewrite elt_upd_same by lia. reflexivity.
    + rewrite elt_upd_other by lia. apply H. lia.
  - exists S. repeat split; auto. intros; apply H2; lia.
Qed.

Lemma init_values_payoff (S : vec) :
  (0 <= j_max)%Z -> size S = (j_max + 1)%Z ->
  exists v_old v_new,
    init_values_ S = Ok (v_old, v_new) /\
    size v_old = (j_max + 1)%Z /\ size v_new = (j_max + 1)%Z /\
    forall j, (0 <= j <= j_max)%Z ->
      v_old.[j] = std_max F (R * S.[j]) /\ v_new.[j] = std_max F (R * S.[j]).
Proof.
  intros Hj HS. unfold init_values. rewrite !vector_ok by lia; cbn [bind].
  match goal with
  | |- context [for_up ?body 0 _ ?s0] =>
      destruct (for_up_inv body
        (fun j '(vo, vn) =>
           size vo = (j_max + 1)%Z /\ size vn = (j_max + 1)%Z /\
           forall k, (0 <= k < j)%Z ->
             vo.[k] = std_max F (R * S.[k]) /\ vn.[k] = std_max F (R * S.[k]))
        0 (j_max + 1) s0) as [[vo vn] [E (H1 & H2 & H3)]]
  end.
  - lia.
  - rewrite size_repeat by lia. repeat split; auto; lia.
  - intros k [vo vn] Hk (H1 & H2 & H3). cbv beta iota. steps.
    eexists; split; [reflexivity|]. cbv beta iota. rewrite !size_upd.
    split; [assumption|]. split; [assumption|].
    intros k' Hk'. destruct (Z.eq_dec k' k) as [->|Hne].
    + rewrite !elt_upd_same by lia. split; reflexivity.
    + rewrite !elt_upd_other by lia. apply H3. lia.
  - exists vo, vn. repeat split; auto; apply H3; lia.
Qed.

Lemma squared_error_runs (v_new y : vec) :
  size v_new = (j_max + 1)%Z -> size y = (j_max + 1)%Z ->
  exists error, squared_error_ v_new y = Ok error.
Proof.
  intros Hv Hy. unfold squared_error.
  match goal with
  | |- context [for_up ?body 0 j_max 0] =>
      destruct (for_up_inv_max body (fun _ _ => True) 0 j_max 0) as [e [E _]]
  end; eauto.
  intros k t Hk _. steps. eauto.
Qed.

(** A pass on vectors of the size of the grid returns a candidate of that
    size and an error: no access leaves the bounds. *)
Lemma penalty_pass_runs (S a b c d v_new : vec) :
  (0 <= j_max)%Z ->
  size S = (j_max + 1)%Z -> size v_new = (j_max + 1)%Z ->
  size a = (j_max + 1)%Z -> size b = (j_max + 1)%Z ->
  size c = (j_max + 1)%Z -> size d = (j_max + 1)%Z ->
  exists y error,
    penalty_pass_ S (a, b, c, d) v_new = Ok (y, error) /\ size y = (j_max + 1)%Z.
Proof.
  intros Hj HS Hv Ha Hb Hc Hd. unfold penalty_pass.
  destruct (apply_penalty_penalised S v_new a b c d HS Hv Hb Hd)
    as (b_hat & d_hat & E & Hbh & Hdh & _).
  rewrite E; cbn [bind].
  destruct (thomas_solve_runs a b_hat c d_hat) as (B & D & y & _ & HB & HX & ET);
    try lia.
  rewrite ET; cbn [bind].
  assert (Hy : size y = (j_max + 1)%Z).
  { destruct HX as [HX _]. destruct HB as [HB _]. lia. }
  destruct (squared_error_runs v_new y Hv Hy) as [e Ee].
  rewrite Ee; cbn [bind]. eauto.
Qed.

Lemma penalty_loop_runs (S a b c d : vec) (count : nat) :
  (0 <= j_max)%Z ->
  size S = (j_max + 1)%Z ->
  size a = (j_max + 1)%Z -> size b = (j_max + 1)%Z ->
  size c = (j_max + 1)%Z -> size d = (j_max + 1)%Z ->
  forall penalty_itr v_new, size v_new = (j_max + 1)%Z ->
  exists itr v,
    penalty_loop_ S (a, b, c, d) count penalty_itr v_new = Ok (itr, v) /\
    size v = (j_max + 1)%Z /\
    (penalty_itr <= itr <= penalty_itr + Z.of_nat count)%Z.
Proof.
  intros Hj HS Ha Hb Hc Hd.
  induction count as [|count IH]; intros itr v_new Hv.
  - exists itr, v_new. simpl. repeat split; auto; lia.
  - destruct (penalty_pass_runs S a b c d v_new) as (y & e & E & Hy); auto.
    cbn [penalty_loop]. rewrite E; cbn [bind].
    destruct (Qltb e (pow tol 2)).
    + exists itr, y. repeat split; auto; lia.
    + destruct (IH (itr + 1)%Z y Hy) as (itr' & v' & E' & Hv' & Hi).
      exists itr', v'. repeat split; auto; lia.
Qed.

(** *** The cap of the penalty iteration *)

Lemma penalty_loop_stalls (S : vec) (s : system) (count : nat) :
  forall penalty_itr v_new, stalls_ S s count v_new ->
  exists v, penalty_loop_ S s count penalty_itr v_new
            = Ok ((penalty_itr + Z.of_nat count)%Z, v).
Proof.
  induction count as [|count IH]; intros itr v_new H.
  - exists v_new. simpl. f_equal. f_equal. lia.
  - destruct H as (y & e & E & He & H).
    cbn [penalty_loop]. rewrite E; cbn [bind].
    destruct (Qltb e (pow tol 2)) eqn:Elt.
    + apply Qltb_lt in Elt. contradiction.
    + destruct (IH (itr + 1)%Z y H) as [v Ev]. exists v. rewrite Ev.
      f_equal. f_equal. lia.
Qed.

Lemma time_layer_stalls (S : vec) (i : Z) (v_old v_new : vec) (s : system) :
  assemble_ S i v_old = Ok s ->
  stalls_ S s (Z.to_nat iter_max) v_new ->
  time_layer_ S i (v_old, v_new) = Err NoConvergence.
Proof.
  intros E H. unfold time_layer. rewrite E; cbn [bind].
  destruct (penalty_loop_stalls S s _ 0%Z v_new H) as [v Ev].
  rewrite Ev; cbn [bind].
  destruct (Z.leb_spec iter_max (0 + Z.of_nat (Z.to_nat iter_max))); [reflexivity|lia].
Qed.

(** C9. If, in a time layer that the march reaches, the penalty iteration
    uses up its [iter_max] passes with no error below [tol^2], the whole
    computation ends by [NoConvergence] and returns no value.  With
    [iter_max = 0] on a grid that has a time layer, that happens in the
    first layer that is processed. *)
Theorem no_convergence_is_fatal :
  (forall (S : vec) (v0 : vec * vec) (m rest : nat) (v_old v_new : vec) (s : system),
      init_grid_ = Ok S -> init_values_ S = Ok v0 ->
      Z.to_nat i_max = (m + Datatypes.S rest)%nat ->
      iterate_down (time_layer_ S) m (i_max - 1) v0 = Ok (v_old, v_new) ->
      assemble_ S (i_max - 1 - Z.of_nat m) v_old = Ok s ->
      stalls_ S s (Z.to_nat iter_max) v_new ->
      crank_nicolson_ = Err NoConvergence) /\
  ((0 <= j_max)%Z -> (1 <= i_max)%Z -> iter_max = 0%Z ->
   crank_nicolson_ = Err NoConvergence).
Proof.
  split.
  - intros S v0 m rest v_old v_new s EG EV Hm Hrun Hs Hstall.
    unfold crank_nicolson. rewrite EG; cbn [bind]. rewrite EV; cbn [bind].
    unfold time_march, for_down.
    replace (Z.to_nat (i_max - 1 - 0 + 1)) with (m + Datatypes.S rest)%nat by lia.
    rewrite (iterate_down_fault _ m rest (i_max - 1) v0 (v_old, v_new) NoConvergence);
      auto.
    now apply time_layer_stalls with (s := s).
  - intros Hj Hi Hit.
    destruct init_grid_nodes as (S & EG & HS & _); [assumption|].
    destruct (init_values_payoff S Hj HS) as (v_old & v_new & EV & Ho & Hn & _).
    destruct (assemble_rows S (i_max - 1) v_old Hj HS Ho)
      as (a & b & c & d & EA & _).
    unfold crank_nicolson. rewrite EG; cbn [bind]. rewrite EV; cbn [bind].
    unfold time_march, for_down.
    replace (Z.to_nat (i_max - 1 - 0 + 1)) with (0 + Datatypes.S (Z.to_nat (i_max - 1)))%nat
      by lia.
    rewrite (iterate_down_fault _ 0 _ (i_max - 1) (v_old, v_new) (v_old, v_new)
               NoConvergence); auto.
    apply time_layer_stalls with (s := (a, b, c, d)).
    + replace (i_max - 1 - Z.of_nat 0)%Z with (i_max - 1)%Z by lia. exact EA.
    + rewrite Hit. simpl. exact I.
Qed.

(** *** Further properties of the assembly and of the terminal values *)

(** X9. The boundary rows of the system of a layer.  The last row pins the
    value of the top node, [a = 0], [b = 1], [c = 0], [d = R * S[j_max]];
    on a grid of at least two nodes the first row is the one of lines
    180-183, whose coupon term is [C * exp(-i * dt)]. *)
Theorem assemble_boundary_rows (S : vec) (i : Z) (v_old : vec) :
  (0 <= j_max)%Z -> size S = (j_max + 1)%Z -> size v_old = (j_max + 1)%Z ->
  exists a b c d,
    assemble_ S i v_old = Ok (a, b, c, d) /\
    (size a = (j_max + 1)%Z /\ size b = (j_max + 1)%Z /\
     size c = (j_max + 1)%Z /\ size d = (j_max + 1)%Z) /\
    (a.[j_max] = 0 /\ b.[j_max] = 1 /\ c.[j_max] = 0 /\ d.[j_max] = R * S.[j_max]) /\
    ((1 <= j_max)%Z ->
     a.[0] = 0 /\
     b.[0] = - (1 / dt_) - (kappa * ((1 + mu) * X * exp (mu * inject_Z i * dt_)) / dS_)
             - (r / 2) /\
     c.[0] = kappa * ((1 + mu) * X * exp (mu * inject_Z i * dt_)) / dS_ /\
     d.[0] = (- (1 / dt_) + (r / 2)) * v_old.[0] - C * exp (inject_Z (- i) * dt_)).
Proof.
  intros Hj HS Hv.
  destruct (assemble_rows S i v_old Hj HS Hv) as (a & b & c & d & E & Hs & H0 & _ & Hl).
  exists a, b, c, d. split; [exact E|]. split; [exact Hs|]. split; [exact Hl|]. exact H0.
Qed.



Lemma iterate_up_ext {St : Type} (f g : Z -> St -> res St) (count : nat) :
  forall j s,
    (forall k t, (j <= k < j + Z.of_nat count)%Z -> f k t = g k t) ->
    iterate_up f count j s = iterate_up g count j s.
Proof.
  induction count as [|count IH]; intros j s H; simpl; [reflexivity|].
  rewrite (H j s) by lia. destruct (g j s) as [s'|e]; simpl; [|reflexivity].
  apply IH. intros k t Hk. apply H. lia.
Qed.

(** X11. The error does not see the top node: the content of cell [j_max] of
    the candidate and of the solution has no effect on it. *)
Theorem squared_error_blind_to_top (v_new y : vec) (p q : Q) :
  (0 <= j_max)%Z -> size v_new = (j_max + 1)%Z -> size y = (j_max + 1)%Z ->
  squared_error_ (upd (Z.to_nat j_max) p v_new) (upd (Z.to_nat j_max) q y)
  = squared_error_ v_new y.
Proof.
  intros Hj Hv Hy. unfold squared_error, for_up.
  apply iterate_up_ext. intros k t Hk.
  rewrite !get_ok by (rewrite ?size_upd; lia). cbn [bind].
  rewrite !elt_upd_other by lia. reflexivity.
Qed.

(** *** The march through the layers *)

Lemma penalty_loop_break (S : vec) (s : system) (count : nat) :
  forall penalty_itr v_new itr v,
    penalty_loop_ S s count penalty_itr v_new = Ok (itr, v) ->
    (penalty_itr <= itr <= penalty_itr + Z.of_nat count)%Z /\
    ((itr < penalty_itr + Z.of_nat count)%Z ->
     exists u error, penalty_pass_ S s u = Ok (v, error) /\ error < pow tol 2).
Proof.
  induction count as [|count IH]; intros itr0 v_new itr v H.
  - simpl in H. injection H as <- <-. split; lia.
  - cbn [penalty_loop] in H.
    destruct (penalty_pass_ S s v_new) as [[y e]|f] eqn:E; cbn [bind] in H; [|discriminate].
    destruct (Qltb e (pow tol 2)) eqn:Elt.
    + injection H as <- <-. split; [lia|]. intros _.
      exists v_new, e. split; [exact E|]. now apply Qltb_lt.
    + apply IH in H. destruct H as [Hr Hb]. split; [lia|].
      intros Hlt. apply Hb. lia.
Qed.

(** X12. A layer that succeeds ended its iteration by a pass whose error is
    below [tol^2]; the solution of that pass is handed on both as [v_old]
    and as [v_new], and [iter_max] is at least one. *)
Theorem time_layer_converged (S : vec) (i : Z) (v_old v_new w1 w2 : vec) :
  time_layer_ S i (v_old, v_new) = Ok (w1, w2) ->
  w1 = w2 /\ (1 <= iter_max)%Z /\
  exists s u error,
    assemble_ S i v_old = Ok s /\
    penalty_pass_ S s u = Ok (w1, error) /\ error < pow tol 2.
Proof.
  unfold time_layer. intros H.
  destruct (assemble_ S i v_old) as [s|f] eqn:EA; cbn [bind] in H; [|discriminate].
  destruct (penalty_loop_ S s (Z.to_nat iter_max) 0 v_new) as [[itr v]|f] eqn:EL;
    cbn [bind] in H; [|discriminate].
  destruct (Z.leb_spec iter_max itr) as [Hle|Hlt]; [discriminate|].
  injection H as <- <-.
  destruct (penalty_loop_break S s _ _ _ _ _ EL) as [Hr Hb].
  split; [reflexivity|]. split; [lia|].
  destruct Hb as (u & e & E & He); [lia|].
  exists s, u, e. auto.
Qed.

Lemma time_layer_runs (S : vec) (i : Z) (v_old v_new : vec) :
  (0 <= j_max)%Z -> size S = (j_max + 1)%Z ->
  size v_old = (j_max + 1)%Z -> size v_new = (j_max + 1)%Z ->
  time_layer_ S i (v_old, v_new) = Err NoConvergence \/
  exists w, time_layer_ S i (v_old, v_new) = Ok (w, w) /\ size w = (j_max + 1)%Z.
Proof.
  intros Hj HS Ho Hn. unfold time_layer.
  destruct (assemble_rows S i v_old Hj HS Ho) as (a & b & c & d & E & (Ha & Hb & Hc & Hd) & _).
  rewrite E; cbn [bind].
  destruct (penalty_loop_runs S a b c d (Z.to_nat iter_max) Hj HS Ha Hb Hc Hd 0%Z v_new Hn)
    as (itr & v & EL & Hv & _).
  rewrite EL; cbn [bind].
  destruct (iter_max <=? itr)%Z; [left; reflexivity|right; eauto].
Qed.

Lemma iterate_down_either {St : Type} (body : Z -> St -> res St) (P : St -> Prop)
    (e0 : fault) :
  (forall j s, P s -> body j s = Err e0 \/ exists s', body j s = Ok s' /\ P s') ->
  forall count j s, P s ->
    iterate_down body count j s = Err e0 \/
    exists s', iterate_down body count j s = Ok s' /\ P s'.
Proof.
  intros Hb. induction count as [|count IH]; intros j s Hs; simpl.
  - right. eauto.
  - destruct (Hb j s Hs) as [E | (s' & E & Hs')]; rewrite E; cbn [bind].
    + left. reflexivity.
    + apply IH. exact Hs'.
Qed.

Lemma time_march_runs (S : vec) (v_old v_new : vec) :
  (0 <= j_max)%Z -> size S = (j_max + 1)%Z ->
  size v_old = (j_max + 1)%Z -> size v_new = (j_max + 1)%Z ->
  time_march_ S (v_old, v_new) = Err NoConvergence \/
  exists w1 w2, time_march_ S (v_old, v_new) = Ok (w1, w2) /\
                size w1 = (j_max + 1)%Z /\ size w2 = (j_max + 1)%Z.
Proof.
  intros Hj HS Ho Hn. unfold time_march, for_down.
  destruct (iterate_down_either (time_layer_ S)
              (fun '(u1, u2) => size u1 = (j_max + 1)%Z /\ size u2 = (j_max + 1)%Z)
              NoConvergence) with (count := Z.to_nat (i_max - 1 - 0 + 1)) (j := (i_max - 1)%Z)
              (s := (v_old, v_new)) as [E | ([w1 w2] & E & H1 & H2)].
  - intros j [u1 u2] [H1 H2].
    destruct (time_layer_runs S j u1 u2 Hj HS H1 H2) as [E | (w & E & Hw)].
    + left. exact E.
    + right. exists (w, w). auto.
  - auto.
  - left. exact E.
  - right. exists w1, w2. auto.
Qed.

Lemma crank_nicolson_runs :
  (1 <= j_max)%Z ->
  crank_nicolson_ = Err NoConvergence \/ exists price, crank_nicolson_ = Ok price.
Proof.
  intros Hj. unfold crank_nicolson.
  destruct init_grid_nodes as (S & EG & HS & _); [lia|].
  destruct (init_values_payoff S ltac:(lia) HS) as (v_old & v_new & EV & Ho & Hn & _).
  rewrite EG; cbn [bind]. rewrite EV; cbn [bind].
  destruct (time_march_runs S v_old v_new ltac:(lia) HS Ho Hn)
    as [E | (w1 & w2 & E & H1 & H2)]; rewrite E; cbn [bind].
  - left. reflexivity.
  - right. rewrite lagrange_interpolation_min.
    unfold size in *.
    destruct (lagrange_body_runs w2 S S0 (Nat.min 8 (length S))) as [_ Hv]; try lia.
    exact Hv.
Qed.

(** X13. On a grid of at least two nodes no access of the whole computation
    leaves the bounds of a vector: [crank_nicolson] either returns a price
    or ends by [NoConvergence]. *)
Theorem crank_nicolson_ends_well :
  (1 <= j_max)%Z ->
  crank_nicolson exp pow T F R r kappa mu S0 X C alpha beta sigma i_max j_max S_max
    rho tol iter_max = Err NoConvergence \/
  exists price,
    crank_nicolson exp pow T F R r kappa mu S0 X C alpha beta sigma i_max j_max S_max
      rho tol iter_max = Ok price.
Proof.
  intros Hj. destruct (crank_nicolson_runs Hj) as [E | [price E]].
  - left. exact E.
  - right. exists price. exact E.
Qed.

Lemma init_grid_size (S : vec) :
  (-1 <= j_max)%Z -> init_grid_ = Ok S -> size S = (j_max + 1)%Z.
Proof.
  intros Hj E. destruct (Z.eq_dec j_max (-1)) as [Hm|Hm].
  - unfold init_grid in E. rewrite Hm in E. simpl in E.
    rewrite for_up_skip in E by lia. injection E as <-. rewrite Hm. reflexivity.
  - destruct init_grid_nodes as (S' & EG & HS & _); [lia|]. congruence.
Qed.

(** X14. A price is returned only on a grid of at least two nodes: with
    [j_max <= 0] the computation ends by a fault, whatever the other
    parameters are. *)
Theorem crank_nicolson_needs_two_nodes (price : Q) :
  crank_nicolson exp pow T F R r kappa mu S0 X C alpha beta sigma i_max j_max S_max
    rho tol iter_max = Ok price ->
  (1 <= j_max)%Z.
Proof.
  intros H. destruct (Z_le_gt_dec 1 j_max) as [|Hj]; [assumption|exfalso].
  unfold crank_nicolson in H.
  destruct init_grid_ as [S|f] eqn:EG; cbn [bind] in H; [|discriminate].
  destruct (Z_lt_le_dec j_max (-1)) as [Hneg|Hge].
  - unfold init_grid, vector in EG.
    destruct (Z.ltb_spec (j_max + 1) 0); [discriminate|lia].
  - apply init_grid_size in EG; [|assumption].
    destruct (init_values_ S) as [v|f]; cbn [bind] in H; [|discriminate].
    destruct (time_march_ S v) as [[w1 w2]|f]; cbn [bind] in H; [|discriminate].
    rewrite lagrange_interpolation_min in H.
    unfold size in EG.
    destruct (Nat.eq_dec (length S) 0) as [E0|E0].
    + rewrite E0 in H. simpl in H. discriminate.
    + rewrite lagrange_body_short in H; [discriminate|lia|lia].
Qed.

(** X15. Without a time step ([i_max <= 0]) the march runs no layer: on a grid
    of at least two nodes the price is the interpolation of the terminal
    payoffs at [S0], and it is returned whatever [iter_max] is. *)
Theorem crank_nicolson_no_layer :
  (1 <= j_max)%Z -> (i_max <= 0)%Z ->
  exists S v price,
    init_grid_ = Ok S /\ init_values_ S = Ok (v, v) /\
    crank_nicolson_ = lagrange_interpolation v S S0 8 /\
    crank_nicolson_ = Ok price.
Proof.
  intros Hj Hi.
  destruct init_grid_nodes as (S & EG & HS & _); [lia|].
  destruct (init_values_payoff S ltac:(lia) HS) as (v_old & v_new & EV & Ho & Hn & Hv).
  assert (Heq : v_new = v_old).
  { apply vec_ext; [lia|]. intros j Hjr.
    destruct (Hv j) as [E1 E2]; [lia|]. now rewrite E1, E2. }
  subst v_new.
  assert (EC : crank_nicolson_ = lagrange_interpolation v_old S S0 8).
  { unfold crank_nicolson. rewrite EG; cbn [bind]. rewrite EV; cbn [bind].
    unfold time_march. rewrite for_down_skip by lia. reflexivity. }
  unfold size in *.
  destruct (lagrange_body_runs v_old S S0 (Nat.min 8 (length S))) as [_ [price Ep]];
    try lia.
  exists S, v_old, price. repeat split; auto.
  rewrite EC, lagrange_interpolation_min. exact Ep.
Qed.

(** X16. The top node is pinned: in a pass on the system of a layer, when the
    elimination meets no zero pivot, the solution at [j_max] is
    [R * S[j_max]]. *)
Theorem top_node_pinned (S : vec) (i : Z) (v_old v_new : vec) (s : system)
    (y : vec) (error : Q) :
  (1 <= j_max)%Z -> size S = (j_max + 1)%Z ->
  size v_old = (j_max + 1)%Z -> size v_new = (j_max + 1)%Z ->
  assemble_ S i v_old = Ok s ->
  (forall a b_hat c d_hat, apply_penalty_ S v_new s = Ok (a, b_hat, c, d_hat) ->
                           pivots_nonzero a b_hat c d_hat = true) ->
  penalty_pass_ S s v_new = Ok (y, error) ->
  y.[j_max] == R * S.[j_max].
Proof.
  intros Hj HS Ho Hn EA Hp EP.
  destruct (assemble_rows S i v_old ltac:(lia) HS Ho)
    as (a & b & c & d & EA' & (Ha & Hb & Hc & Hd) & _ & _ & (La & Lb & Lc & Ld)).
  rewrite EA in EA'. injection EA' as ->.
  destruct (apply_penalty_penalised S v_new a b c d HS Hn Hb Hd)
    as (b_hat & d_hat & E & Hbh & Hdh & H).
  specialize (Hp a b_hat c d_hat E).
  unfold penalty_pass in EP. rewrite E in EP; cbn [bind] in EP.
  destruct (thomas_solve_rows a b_hat c d_hat) as (x & d' & ET & Hx & Hrows);
    try lia; try assumption.
  rewrite ET in EP; cbn [bind] in EP.
  destruct (squared_error_ v_new x) as [e|f]; cbn [bind] in EP; [|discriminate].
  injection EP as <- <-.
  specialize (Hrows j_max ltac:(lia)). unfold row_lhs in Hrows.
  destruct (Z.eqb_spec j_max 0); [lia|].
  destruct (Z.eqb_spec j_max (size a - 1)); [|lia].
  destruct (H j_max ltac:(lia)) as [_ Hkeep].
  destruct Hkeep as [Kb Kd]; [intros [? _]; lia|].
  rewrite Kb, Kd, La, Lb, Ld in Hrows. rewrite <- Hrows. ring.
Qed.

(** *** What a pass solves, and when a layer fails *)

(** X17. A pass solves the penalised system: when the elimination meets no zero
    pivot, the returned candidate [y] satisfies, in every row [j] of the
    base system, [row j of (a, b, c) at y + penalty j == d[j]], where the
    penalty is [rho * (y[j] - R * S[j])] at the interior nodes whose
    previous candidate is strictly below [R * S[j]] and zero elsewhere. *)
Theorem penalty_pass_solves (S a b c d v_new y : vec) (error : Q) :
  (0 <= j_max)%Z -> size S = (j_max + 1)%Z -> size v_new = (j_max + 1)%Z ->
  size a = (j_max + 1)%Z -> size b = (j_max + 1)%Z ->
  size c = (j_max + 1)%Z -> size d = (j_max + 1)%Z ->
  (forall b_hat d_hat, apply_penalty_ S v_new (a, b, c, d) = Ok (a, b_hat, c, d_hat) ->
                       pivots_nonzero a b_hat c d_hat = true) ->
  penalty_pass_ S (a, b, c, d) v_new = Ok (y, error) ->
  forall j, (0 <= j <= j_max)%Z ->
    row_lhs a b c y j
    + (if ((1 <=? j)%Z && (j <=? j_max - 1)%Z && Qltb v_new.[j] (R * S.[j]))%bool
       then rho * (y.[j] - R * S.[j]) else 0)
    == d.[j].
Proof.
  intros Hj HS Hn Ha Hb Hc Hd Hp EP.
  destruct (apply_penalty_penalised S v_new a b c d HS Hn Hb Hd)
    as (b_hat & d_hat & E & Hbh & Hdh & H).
  specialize (Hp b_hat d_hat E).
  unfold penalty_pass in EP. rewrite E in EP; cbn [bind] in EP.
  destruct (thomas_solve_rows a b_hat c d_hat) as (x & d' & ET & Hx & Hrows);
    try lia; try assumption.
  rewrite ET in EP; cbn [bind] in EP.
  destruct (squared_error_ v_new x) as [e|f]; cbn [bind] in EP; [|discriminate].
  injection EP as <- <-.
  intros j Hjr. specialize (Hrows j ltac:(lia)).
  destruct (H j Hjr) as [Hpen Hkeep].
  unfold row_lhs in *.
  destruct ((1 <=? j)%Z && (j <=? j_max - 1)%Z && Qltb v_new.[j] (R * S.[j]))%bool eqn:Ec.
  - apply andb_prop in Ec. destruct Ec as [Ec Elt]. apply andb_prop in Ec.
    destruct Ec as [E1 E2]. apply Z.leb_le in E1. apply Z.leb_le in E2.
    apply Qltb_lt in Elt.
    destruct Hpen as [Kb Kd]; [split; [lia|exact Elt]|].
    rewrite Kb, Kd in Hrows.
    destruct (j =? 0)%Z; destruct (j =? size a - 1)%Z; lra.
  - destruct Hkeep as [Kb Kd].
    { intros [Hr Hlt]. apply Qltb_lt in Hlt.
      destruct (Z.leb_spec 1 j); destruct (Z.leb_spec j (j_max - 1)); try lia.
      rewrite Hlt in Ec. discriminate. }
    rewrite Kb, Kd in Hrows. rewrite Qplus_0_r. exact Hrows.
Qed.

Lemma penalty_loop_exhausted (S : vec) (s : system) (count : nat) :
  forall penalty_itr v_new v,
    penalty_loop_ S s count penalty_itr v_new = Ok ((penalty_itr + Z.of_nat count)%Z, v) ->
    stalls_ S s count v_new.
Proof.
  induction count as [|count IH]; intros itr v_new v H; [exact I|].
  cbn [penalty_loop] in H.
  destruct (penalty_pass_ S s v_new) as [[y e]|f] eqn:E; cbn [bind] in H; [|discriminate].
  destruct (Qltb e (pow tol 2)) eqn:Elt.
  - injection H as H _. lia.
  - exists y, e. split; [exact E|]. split.
    + intros Hlt. apply Qltb_lt in Hlt. congruence.
    + apply (IH (itr + 1)%Z y v). rewrite H. f_equal. f_equal. lia.
Qed.

(** X18. On vectors of the size of the grid a layer ends by [NoConvergence]
    exactly when the [iter_max] passes that the cap allows all end with an
    error that is not below [tol^2] (no pass at all when [iter_max <= 0]);
    otherwise it succeeds. *)
Theorem time_layer_fails_iff (S : vec) (i : Z) (v_old v_new : vec) :
  (0 <= j_max)%Z -> size S = (j_max + 1)%Z ->
  size v_old = (j_max + 1)%Z -> size v_new = (j_max + 1)%Z ->
  exists s,
    assemble_ S i v_old = Ok s /\
    (time_layer_ S i (v_old, v_new) = Err NoConvergence <->
     stalls_ S s (Z.to_nat iter_max) v_new) /\
    (~ stalls_ S s (Z.to_nat iter_max) v_new ->
     exists w, time_layer_ S i (v_old, v_new) = Ok (w, w)).
Proof.
  intros Hj HS Ho Hn.
  destruct (assemble_rows S i v_old Hj HS Ho) as (a & b & c & d & E & (Ha & Hb & Hc & Hd) & _).
  exists (a, b, c, d). split; [exact E|].
  assert (Hiff : time_layer_ S i (v_old, v_new) = Err NoConvergence <->
                 stalls_ S (a, b, c, d) (Z.to_nat iter_max) v_new).
  { split.
    - unfold time_layer. rewrite E; cbn [bind].
      destruct (penalty_loop_runs S a b c d (Z.to_nat iter_max) Hj HS Ha Hb Hc Hd 0%Z v_new Hn)
        as (itr & v & EL & Hv & Hr).
      rewrite EL; cbn [bind].
      destruct (Z.leb_spec iter_max itr) as [Hle|Hlt]; [|discriminate]. intros _.
      destruct (Z_le_gt_dec iter_max 0) as [H0|H0].
      + replace (Z.to_nat iter_max) with O by lia. exact I.
      + apply (penalty_loop_exhausted S (a, b, c, d) _ 0%Z v_new v).
        rewrite EL. f_equal. f_equal. lia.
    - apply time_layer_stalls. exact E. }
  split; [exact Hiff|].
  intros Hns. destruct (time_layer_runs S i v_old v_new Hj HS Ho Hn) as [EF | (w & EW & _)].
  - apply Hiff in EF. contradiction.
  - eauto.
Qed.

End PricerProperties.

Lemma assemble_interior_rows_witness :
  exists a b c d,
    assemble exp_q pow_q 1 1 (1 # 100) (1 # 8) 0 50 (1 # 4) (1 # 100) 1 (1 # 2) 2 3 30
             [0; 10; 20; 30] 1 [50; 50; 50; 50] = Ok (a, b, c, d) /\
    b.[1] = (1 / dt 1 2) + 0.5 * pow_q (1 # 2) 2 * pow_q (inject_Z 1) (2 * 1)
                           * pow_q (dS 3 30) (2 * (1 - 1)) + (1 # 100) / 2.
Proof.
  destruct (assemble_interior_rows exp_q pow_q 1 1 (1 # 100) (1 # 8) 0 50 (1 # 4)
              (1 # 100) 1 (1 # 2) 2 3 30 [0; 10; 20; 30] 1 [50; 50; 50; 50])
    as (a & b & c & d & E & H); [lia | reflexivity | reflexivity |].
  exists a, b, c, d. split; [exact E|]. apply (H 1%Z). lia.
Defined.

Lemma apply_penalty_frame_witness :
  exists b_hat d_hat,
    apply_penalty 1 3 100 [0; 10; 20; 30] [50; 5; 50; 50]
                  ([0; 1; 1; 0], [2; 3; 3; 1], [1; 1; 1; 0], [1; 2; 3; 4])
    = Ok ([0; 1; 1; 0], b_hat, [1; 1; 1; 0], d_hat) /\
    b_hat.[1] = 3 + 100 /\ d_hat.[1] = 2 + 100 * (1 * 10) /\
    b_hat.[2] = 3 /\ d_hat.[2] = 3.
Proof.
  destruct (apply_penalty_frame 1 3 100 [0; 10; 20; 30] [50; 5; 50; 50]
              [0; 1; 1; 0] [2; 3; 3; 1] [1; 1; 1; 0] [1; 2; 3; 4])
    as (b_hat & d_hat & E & _ & _ & H); [reflexivity | reflexivity | reflexivity | reflexivity |].
  exists b_hat, d_hat. split; [exact E|].
  assert (H1 : b_hat.[1] = 3 + 100 /\ d_hat.[1] = 2 + 100 * (1 * 10)).
  { apply (proj1 (H 1%Z ltac:(lia))). split; [lia | reflexivity]. }
  assert (H2 : b_hat.[2] = 3 /\ d_hat.[2] = 3).
  { apply (proj2 (H 2%Z ltac:(lia))). intros [_ Hlt]. vm_compute in Hlt. discriminate. }
  tauto.
Defined.

Lemma no_convergence_is_fatal_witness :
  crank_nicolson exp_q pow_q 1 50 1 2 0 0 5 5 0 0 1 1 1 1 10 1 1 1 = Err NoConvergence /\
  crank_nicolson exp_q pow_q 1 50 1 0 0 0 5 5 0 0 1 1 1 1 10 1 1 0 = Err NoConvergence.
Proof.
  split.
  - eapply (proj1 (no_convergence_is_fatal exp_q pow_q 1 50 1 2 0 0 5 5 0 0 1 1 1 1 10
                     1 1 1)
              [0; 10] ([50; 50], [50; 50]) 0%nat 0%nat [50; 50] [50; 50]).
    + vm_compute. reflexivity.
    + vm_compute. reflexivity.
    + reflexivity.
    + reflexivity.
    + vm_compute. reflexivity.
    + eexists. eexists. split; [vm_compute; reflexivity|]. split; [|exact I].
      intros Hlt. vm_compute in Hlt. discriminate.
  - apply (proj2 (no_convergence_is_fatal exp_q pow_q 1 50 1 0 0 0 5 5 0 0 1 1 1 1 10
                    1 1 0)); [lia | lia | reflexivity].
Defined.

(** C2. The loop of lines 226-228 stops before the node [j_max].  On the
    grid of two nodes with [F = 50], [R = 1], [S_max = 10] the first pass
    turns the candidate [50; 50] into [50; 10]: the error of the code is
    [0], below [tol^2 = 1], and the iteration ends at once, while the
    squared differences of the nodes [0..j_max] add up to [1600]. *)
Theorem squared_error_skips_last_node :
  exists s y error full,
    init_grid 1 10 = Ok [0; 10] /\
    init_values 50 1 1 [0; 10] = Ok ([50; 50], [50; 50]) /\
    assemble exp_q pow_q 1 1 0 0 0 5 0 0 1 1 1 1 10 [0; 10] 0 [50; 50] = Ok s /\
    penalty_pass pow_q 1 1 1 [0; 10] s [50; 50] = Ok (y, error) /\
    map Qred y = [50; 10] /\
    error == 0 /\ error < pow_q 1 2 /\
    spec_squared_error pow_q 1 [50; 50] y = Ok full /\
    full == 1600 /\ ~ full < pow_q 1 2 /\
    penalty_loop pow_q 1 1 1 1 [0; 10] s 5 0 [50; 50] = Ok (0%Z, y).
Proof.
  do 4 eexists.
  split; [vm_compute; reflexivity|].
  split; [vm_compute; reflexivity|].
  split; [vm_compute; reflexivity|].
  split; [vm_compute; reflexivity|].
  split; [vm_compute; reflexivity|].
  split; [vm_compute; reflexivity|].
  split; [vm_compute; reflexivity|].
  split; [vm_compute; reflexivity|].
  split; [vm_compute; reflexivity|].
  split; [intros H; vm_compute in H; discriminate|].
  vm_compute. reflexivity.
Qed.

Lemma assemble_boundary_rows_witness :
  exists a b c d,
    assemble exp_q pow_q 1 1 0 0 0 5 0 0 1 1 1 2 10 [0; 5; 10] 0 [50; 50; 50]
    = Ok (a, b, c, d) /\
    (a.[2] = 0 /\ b.[2] = 1 /\ c.[2] = 0 /\ d.[2] = 1 * [0; 5; 10].[2]).
Proof.
  destruct (assemble_boundary_rows exp_q pow_q 1 1 0 0 0 5 0 0 1 1 1 2 10
              [0; 5; 10] 0 [50; 50; 50]) as (a & b & c & d & E & _ & H & _);
    [lia | reflexivity | reflexivity |].
  exists a, b, c, d. split; [exact E|exact H].
Defined.


Lemma squared_error_blind_to_top_witness :
  squared_error pow_q 2 (upd (Z.to_nat 2) 7 [50; 50; 50]) (upd (Z.to_nat 2) 9 [50; 40; 10])
  = squared_error pow_q 2 [50; 50; 50] [50; 40; 10].
Proof.
  apply (squared_error_blind_to_top pow_q 2 [50; 50; 50] [50; 40; 10] 7 9);
    [lia | reflexivity | reflexivity].
Defined.

Lemma time_layer_converged_witness :
  exists w1 w2,
    time_layer exp_q pow_q 1 1 0 0 0 5 0 0 1 1 1 2 10 1 1 5 [0; 5; 10] 0
               ([50; 50; 50], [50; 50; 50]) = Ok (w1, w2) /\
    w1 = w2 /\ (1 <= 5)%Z.
Proof.
  destruct (time_layer exp_q pow_q 1 1 0 0 0 5 0 0 1 1 1 2 10 1 1 5 [0; 5; 10] 0
              ([50; 50; 50], [50; 50; 50])) as [[w1 w2]|f] eqn:E.
  - exists w1, w2. split; [reflexivity|].
    destruct (time_layer_converged _ _ _ _ _ _ _ _ _ _ _ _ _ _ _ _ _ _ _ _ _ _ _ _ E)
      as (H1 & H2 & _).
    split; [exact H1|exact H2].
  - vm_compute in E. discriminate.
Defined.

Lemma crank_nicolson_ends_well_witness :
  crank_nicolson exp_q pow_q 1 50 1 0 0 0 5 5 0 0 1 1 1 2 10 1 1 5 = Err NoConvergence \/
  exists price, crank_nicolson exp_q pow_q 1 50 1 0 0 0 5 5 0 0 1 1 1 2 10 1 1 5 = Ok price.
Proof.
  apply (crank_nicolson_ends_well exp_q pow_q 1 50 1 0 0 0 5 5 0 0 1 1 1 2 10 1 1 5). lia.
Defined.

Lemma crank_nicolson_needs_two_nodes_witness : (1 <= 2)%Z.
Proof.
  eapply (crank_nicolson_needs_two_nodes exp_q pow_q 1 50 1 0 0 0 5 5 0 0 1 1 1 2 10 1 1 5).
  vm_compute. reflexivity.
Defined.

Lemma crank_nicolson_no_layer_witness :
  exists S v price,
    init_grid 2 10 = Ok S /\ init_values 50 1 2 S = Ok (v, v) /\
    crank_nicolson exp_q pow_q 1 50 1 0 0 0 5 5 0 0 1 1 0 2 10 1 1 0
    = lagrange_interpolation v S 5 8 /\
    crank_nicolson exp_q pow_q 1 50 1 0 0 0 5 5 0 0 1 1 0 2 10 1 1 0 = Ok price.
Proof.
  apply (crank_nicolson_no_layer exp_q pow_q 1 50 1 0 0 0 5 5 0 0 1 1 0 2 10 1 1 0); lia.
Defined.

Lemma top_node_pinned_witness :
  exists s y error,
    assemble exp_q pow_q 1 1 0 0 0 5 0 0 1 1 1 2 10 [0; 5; 10] 0 [50; 50; 50] = Ok s /\
    penalty_pass pow_q 1 2 1 [0; 5; 10] s [50; 50; 50] = Ok (y, error) /\
    y.[2] == 1 * [0; 5; 10].[2].
Proof.
  destruct (assemble exp_q pow_q 1 1 0 0 0 5 0 0 1 1 1 2 10 [0; 5; 10] 0 [50; 50; 50])
    as [s|f] eqn:EA; [|vm_compute in EA; discriminate].
  destruct (penalty_pass pow_q 1 2 1 [0; 5; 10] s [50; 50; 50]) as [[y error]|f] eqn:EP.
  - exists s, y, error. split; [reflexivity|]. split; [exact EP|].
    apply (top_node_pinned exp_q pow_q 1 1 0 0 0 5 0 0 1 1 1 2 10 1 [0; 5; 10] 0
             [50; 50; 50] [50; 50; 50] s y error ltac:(lia) eq_refl eq_refl eq_refl EA);
      [|exact EP].
    intros a b_hat c d_hat E. vm_compute in EA. injection EA as <-.
    vm_compute in E. injection E as <- <- <- <-.
    vm_compute. reflexivity.
  - vm_compute in EA. injection EA as <-. vm_compute in EP. discriminate.
Defined.

(** X19. The run of the program itself, for any [exp] and [pow]: it ends by a
    price or by [NoConvergence], no access leaves the bounds of a vector;
    its grid has 101 nodes and the final interpolation at [S0 = 50.5] uses
    the eight nodes from index 17 on. *)
Theorem main_ends_well (exp : Q -> Q) (pow : Q -> Q -> Q) :
  (main_option_value exp pow = Err NoConvergence \/
   exists price, main_option_value exp pow = Ok price) /\
  exists S,
    init_grid 100 (5 * 50) = Ok S /\ length S = 101%nat /\
    window_start 50.5 S.[0] (S.[1] - S.[0]) 8 (length S) = 17%Z.
Proof.
  split.
  - unfold main_option_value. cbv zeta. apply crank_nicolson_runs. lia.
  - destruct (init_grid 100 (5 * 50)) as [S|f] eqn:E.
    + exists S. split; [reflexivity|].
      vm_compute in E. injection E as <-. split; vm_compute; reflexivity.
    + vm_compute in E. discriminate.
Qed.

Lemma penalty_pass_solves_witness :
  exists y error,
    penalty_pass pow_q 1 2 100 [0; 5; 10] ([0; 1; 0], [2; 3; 1], [1; 1; 0], [1; 2; 10])
                 [50; 1; 10] = Ok (y, error) /\
    row_lhs [0; 1; 0] [2; 3; 1] [1; 1; 0] y 1
    + (if ((1 <=? 1)%Z && (1 <=? 2 - 1)%Z && Qltb [50; 1; 10].[1] (1 * [0; 5; 10].[1]))%bool
       then 100 * (y.[1] - 1 * [0; 5; 10].[1]) else 0)
    == [1; 2; 10].[1].
Proof.
  destruct (penalty_pass pow_q 1 2 100 [0; 5; 10]
              ([0; 1; 0], [2; 3; 1], [1; 1; 0], [1; 2; 10]) [50; 1; 10])
    as [[y error]|f] eqn:EP; [|vm_compute in EP; discriminate].
  exists y, error. split; [reflexivity|].
  apply (penalty_pass_solves pow_q 1 2 100 [0; 5; 10] [0; 1; 0] [2; 3; 1] [1; 1; 0]
           [1; 2; 10] [50; 1; 10] y error ltac:(lia) eq_refl eq_refl eq_refl eq_refl
           eq_refl eq_refl); [|exact EP|lia].
  intros b_hat d_hat E. vm_compute in E. injection E as <- <-. vm_compute. reflexivity.
Defined.

Lemma time_layer_fails_iff_witness :
  exists s,
    assemble exp_q pow_q 1 1 0 0 0 5 0 0 1 1 1 2 10 [0; 5; 10] 0 [50; 50; 50] = Ok s /\
    (time_layer exp_q pow_q 1 1 0 0 0 5 0 0 1 1 1 2 10 1 1 5 [0; 5; 10] 0
                ([50; 50; 50], [50; 50; 50]) = Err NoConvergence <->
     stalls pow_q 1 2 1 1 [0; 5; 10] s (Z.to_nat 5) [50; 50; 50]) /\
    (~ stalls pow_q 1 2 1 1 [0; 5; 10] s (Z.to_nat 5) [50; 50; 50] ->
     exists w, time_layer exp_q pow_q 1 1 0 0 0 5 0 0 1 1 1 2 10 1 1 5 [0; 5; 10] 0
                          ([50; 50; 50], [50; 50; 50]) = Ok (w, w)).
Proof.
  apply (time_layer_fails_iff exp_q pow_q 1 1 0 0 0 5 0 0 1 1 1 2 10 1 1 5
           [0; 5; 10] 0 [50; 50; 50] [50; 50; 50]); [lia | reflexivity..].
Defined.

(** * Queries outside the grid *)




